(** * ditherto: the dithering engine, embedded in Rocq

    Shallow embedding of the TypeScript sources
    - src/palette/utils.ts and the per-algorithm copies of findClosestColor,
    - src/algorithms/atkinson.ts (second variant, with processPixel),
    - src/unnamed/part_010 (floydSteinberg.ts),
    - src/algorithms/ordered.ts,
    - src/algorithmRegistry.ts and src/imageProcessor.ts.

    Data: a Uint8ClampedArray is a [list Z] of bytes; a store write
    [pixels[i] = v] converts [v] with ECMAScript ToUint8Clamp and is
    ignored out of range, a read out of range yields [undefined], which
    the source turns into 0 ([?? 0]).  The error arithmetic of the
    diffusion kernels is exact in binary64 (integers times 1/8 or k/16),
    so it is modelled in [Q].  Math.sqrt in the colour distance is
    strictly increasing, so comparing distances is modelled by comparing
    squared distances. *)

From Stdlib Require Import QArith Qround ZArith Lia Qminmax.
From stdpp Require Import base gmap strings list.

Open Scope Z_scope.

(** ** Colours, bytes and the Uint8ClampedArray store *)

(** [ColorRGB]: a palette entry. *)
Abbreviation color := (Z * Z * Z)%type.

(** The strict comparison [a < b] on numbers. *)
Definition Qlt_bool (a b : Q) : bool := negb (Qle_bool b a).

(** ECMAScript ToUint8Clamp (round half to even after clamping). *)
Definition ToUint8Clamp (q : Q) : Z :=
  if Qle_bool q 0 then 0
  else if Qle_bool (inject_Z 255) q then 255
  else
    let f := Qfloor q in
    let d := (q - inject_Z f)%Q in
    if Qlt_bool (1 # 2) d then f + 1
    else if Qlt_bool d (1 # 2) then f
    else if Z.even f then f else f + 1.

(** [pixels[i]] ([undefined ?? 0] out of range). *)
Definition read (pixels : list Z) (i : Z) : Z :=
  if i <? 0 then 0 else default 0 (pixels !! Z.to_nat i).

(** [pixels[i] = v]: typed arrays ignore out-of-range writes. *)
Definition write (pixels : list Z) (i : Z) (v : Q) : list Z :=
  if i <? 0 then pixels else <[Z.to_nat i := ToUint8Clamp v]> pixels.

(** [Math.min] and [Math.max] on numbers. *)
Definition Math_min (a b : Q) : Q := if Qle_bool a b then a else b.
Definition Math_max (a b : Q) : Q := if Qle_bool a b then b else a.

(** [Math.max(0, Math.min(255, v))] *)
Definition clamp255 (v : Q) : Q := Math_max 0 (Math_min (inject_Z 255) v).

(** ** Errors thrown by the engine and the pipeline *)

Inductive exn :=
| EmptyPalette            (* 'Palette cannot be empty' *)
| InvalidStep             (* 'Step must be >= 1' *)
| StepNotPositive         (* 'Step must be greater than 0' *)
| InvalidQuality          (* 'Quality must be between 0 and 1' *)
| InvalidWidth            (* 'Width must be greater than 0' *)
| InvalidHeight           (* 'Height must be greater than 0' *)
| InvalidAlgorithm (name : string)  (* 'Invalid algorithm: ...' *)
| UnknownAlgorithm (name : string)  (* 'Unknown algorithm: ...' *)
| LoadError (message : string)      (* 'Failed to load image from path: ...' *)
| InvalidArrayLength.               (* RangeError: 'Invalid typed array length' *)

(** ** findClosestColor *)

(** Squared Euclidean RGB distance (the source takes its square root). *)
Definition dist2 (pixel : Q * Q * Q) (c : color) : Q :=
  let '(pr, pg, pb) := pixel in
  let '(cr, cg, cb) := c in
  ((pr - inject_Z cr) * (pr - inject_Z cr)
   + (pg - inject_Z cg) * (pg - inject_Z cg)
   + (pb - inject_Z cb) * (pb - inject_Z cb))%Q.

(** The [for (const color of palette)] loop; [None] is
    [Number.POSITIVE_INFINITY]. *)
Fixpoint closest_loop (pixel : Q * Q * Q) (palette : list color)
    (minDistance : option Q) (closest : color) : color :=
  match palette with
  | [] => closest
  | c :: rest =>
      let distance := dist2 pixel c in
      let better := match minDistance with
                    | None => true
                    | Some m => Qlt_bool distance m
                    end in
      if better then closest_loop pixel rest (Some distance) c
      else closest_loop pixel rest minDistance closest
  end.

Definition findClosestColor (pixel : Q * Q * Q) (palette : list color)
    : exn + color :=
  match palette with
  | [] => inl EmptyPalette
  | c0 :: _ => inr (closest_loop pixel palette None c0)
  end.

Definition injZ3 (p : Z * Z * Z) : Q * Q * Q :=
  let '(r, g, b) := p in (inject_Z r, inject_Z g, inject_Z b).

(** ** A state and exception monad for the pixel loops *)

Definition SM (S A : Type) := S -> exn + (A * S).

Definition ret {S A} (a : A) : SM S A := fun s => inr (a, s).
Definition bind {S A B} (m : SM S A) (k : A -> SM S B) : SM S B :=
  fun s => match m s with inl e => inl e | inr (a, s') => k a s' end.
Definition throw {S A} (e : exn) : SM S A := fun _ => inl e.
Definition lift_exn {S A} (r : exn + A) : SM S A :=
  fun s => match r with inl e => inl e | inr a => inr (a, s) end.

Notation "x <- m ;; k" := (bind m (fun x => k))
  (at level 100, m at next level, right associativity).
Notation "m ;;; k" := (bind m (fun _ => k))
  (at level 100, right associativity).

Definition get_px (i : Z) : SM (list Z) Z := fun p => inr (read p i, p).
Definition set_px (i : Z) (v : Q) : SM (list Z) unit :=
  fun p => inr (tt, write p i v).
Definition when {S} (b : bool) (m : SM S unit) : SM S unit :=
  if b then m else ret tt.

(** [for (let v = start; v < bound; v += step)]: the visited values.
    The fuel [bound - start] suffices as soon as [step >= 1]. *)
Fixpoint upto_step (fuel : nat) (v bound step : Z) : list Z :=
  match fuel with
  | O => []
  | S n => if v <? bound then v :: upto_step n (v + step) bound step else []
  end.

Definition js_for (start bound step : Z) : list Z :=
  upto_step (Z.to_nat (bound - start)) start bound step.

Fixpoint mfor {S} (l : list Z) (body : Z -> SM S unit) : SM S unit :=
  match l with
  | [] => ret tt
  | v :: rest => body v ;;; mfor rest body
  end.

(** ** The caller's store: buffers live in a heap of references *)

Record ImageData := mkImageData {
  width : Z; height : Z; data : positive  (* reference to the buffer *)
}.

Record World := mkWorld {
  heap : gmap positive (list Z);
  rand_draw : nat -> Q;     (* the values returned by Math.random() *)
  rand_pos : nat            (* how many have been drawn so far *)
}.

Definition set_heap (w : World) (h : gmap positive (list Z)) : World :=
  mkWorld h (rand_draw w) (rand_pos w).

(** [new Uint8ClampedArray(data.data)]: a fresh reference holding a copy. *)
Definition alloc_copy (w : World) (src : positive) : positive * World :=
  let r := fresh (dom (heap w)) in
  (r, set_heap w (<[r := default [] (heap w !! src)]> (heap w))).

(** The copy of [new Uint8ClampedArray(data.data)] read back from the
    store: the buffer the pixel loops mutate ([const pixels = result.data]). *)
Definition buffer_of (w : World) (r : positive) : list Z :=
  default [] (heap w !! r).

(** The [for (y ...) for (x ...)] block scan shared by the algorithms. *)
Definition scan_blocks {S} (width height step : Z) (body : Z -> Z -> SM S unit)
    : SM S unit :=
  mfor (js_for 0 height step) (fun y =>
    mfor (js_for 0 width step) (fun x => body x y)).

(** [applyError] (identical in atkinson.ts and floydSteinberg.ts). *)
Definition applyError (index errorR errorG errorB : Z) (factor : Q)
    : SM (list Z) unit :=
  v0 <- get_px index ;;
  set_px index (clamp255 (inject_Z v0 + inject_Z errorR * factor)%Q) ;;;
  v1 <- get_px (index + 1) ;;
  set_px (index + 1) (clamp255 (inject_Z v1 + inject_Z errorG * factor)%Q) ;;;
  v2 <- get_px (index + 2) ;;
  set_px (index + 2) (clamp255 (inject_Z v2 + inject_Z errorB * factor)%Q).

(** Quantize the anchor [(x, y)]: read it, find the closest colour, write
    it with alpha 255, and return the per-channel error [old - new]. *)
Definition quantizeAnchor (x y width : Z) (palette : list color)
    : SM (list Z) (Z * Z * Z) :=
  let i := (y * width + x) * 4 in
  o0 <- get_px i ;; o1 <- get_px (i + 1) ;; o2 <- get_px (i + 2) ;;
  newPixel <- lift_exn (findClosestColor (injZ3 (o0, o1, o2)) palette) ;;
  let '(n0, n1, n2) := newPixel in
  set_px i (inject_Z n0) ;;;
  set_px (i + 1) (inject_Z n1) ;;;
  set_px (i + 2) (inject_Z n2) ;;;
  set_px (i + 3) (inject_Z 255) ;;;
  ret (o0 - n0, o1 - n1, o2 - n2).

(** The common shape of [apply] for the diffusion algorithms: validate,
    copy the input into a fresh buffer, run the block scan on it. *)
Definition run_apply (loop : SM (list Z) unit) (w : World) (input : ImageData)
    (palette : list color) (step : Z) : World * (exn + ImageData) :=
  if (length palette =? 0)%nat then (w, inl EmptyPalette)
  else if step <? 1 then (w, inl InvalidStep)
  else
    let '(r, w1) := alloc_copy w (data input) in
    match loop (buffer_of w1 r) with
    | inl e => (w1, inl e)
    | inr (_, pixels) =>
        (set_heap w1 (<[r := pixels]> (heap w1)),
         inr (mkImageData (width input) (height input) r))
    end.

Module Atkinson.

Definition distributeAtkinsonError (x y width height errorR errorG errorB step : Z)
    : SM (list Z) unit :=
  let errorFactor := (1 # 8)%Q in
  when (x + step <? width)
    (applyError ((y * width + (x + step)) * 4) errorR errorG errorB errorFactor) ;;;
  when (x + step * 2 <? width)
    (applyError ((y * width + (x + step * 2)) * 4) errorR errorG errorB errorFactor) ;;;
  when ((y + step <? height) && (x - step >=? 0))
    (applyError (((y + step) * width + (x - step)) * 4) errorR errorG errorB errorFactor) ;;;
  when (y + step <? height)
    (applyError (((y + step) * width + x) * 4) errorR errorG errorB errorFactor) ;;;
  when ((y + step <? height) && (x + step <? width))
    (applyError (((y + step) * width + (x + step)) * 4) errorR errorG errorB errorFactor) ;;;
  when (y + step * 2 <? height)
    (applyError (((y + step * 2) * width + x) * 4) errorR errorG errorB errorFactor).

Definition processPixel (x y width height : Z) (palette : list color) (step : Z)
    : SM (list Z) unit :=
  err <- quantizeAnchor x y width palette ;;
  let '(errorR, errorG, errorB) := err in
  distributeAtkinsonError x y width height errorR errorG errorB step.

Definition loop (width height : Z) (palette : list color) (step : Z)
    : SM (list Z) unit :=
  scan_blocks width height step (fun x y =>
    processPixel x y width height palette step).

Definition apply (w : World) (input : ImageData) (palette : list color) (step : Z)
    : World * (exn + ImageData) :=
  run_apply (loop (width input) (height input) palette step) w input palette step.

End Atkinson.

Module FloydSteinberg.

Definition distributeFloydSteinbergError (x y width height errorR errorG errorB step : Z)
    : SM (list Z) unit :=
  when (x + step <? width)
    (applyError ((y * width + (x + step)) * 4) errorR errorG errorB (7 # 16)) ;;;
  when ((y + step <? height) && (x - step >=? 0))
    (applyError (((y + step) * width + (x - step)) * 4) errorR errorG errorB (3 # 16)) ;;;
  when (y + step <? height)
    (applyError (((y + step) * width + x) * 4) errorR errorG errorB (5 # 16)) ;;;
  when ((y + step <? height) && (x + step <? width))
    (applyError (((y + step) * width + (x + step)) * 4) errorR errorG errorB (1 # 16)).

Definition processPixel (x y width height : Z) (palette : list color) (step : Z)
    : SM (list Z) unit :=
  err <- quantizeAnchor x y width palette ;;
  let '(errorR, errorG, errorB) := err in
  distributeFloydSteinbergError x y width height errorR errorG errorB step.

Definition fillPixelBlock (x y width height step : Z) : SM (list Z) unit :=
  c0 <- get_px ((y * width + x) * 4) ;;
  c1 <- get_px ((y * width + x) * 4 + 1) ;;
  c2 <- get_px ((y * width + x) * 4 + 2) ;;
  mfor (js_for y (Z.min (y + step) height) 1) (fun by' =>
    mfor (js_for x (Z.min (x + step) width) 1) (fun bx =>
      when (negb (by' =? y) || negb (bx =? x))
        (let blockI := (by' * width + bx) * 4 in
         set_px blockI (inject_Z c0) ;;;
         set_px (blockI + 1) (inject_Z c1) ;;;
         set_px (blockI + 2) (inject_Z c2) ;;;
         set_px (blockI + 3) (inject_Z 255)))).

Definition loop (width height : Z) (palette : list color) (step : Z)
    : SM (list Z) unit :=
  scan_blocks width height step (fun x y =>
    processPixel x y width height palette step ;;;
    when (step >? 1) (fillPixelBlock x y width height step)).

Definition apply (w : World) (input : ImageData) (palette : list color) (step : Z)
    : World * (exn + ImageData) :=
  run_apply (loop (width input) (height input) palette step) w input palette step.

End FloydSteinberg.

Module Ordered.

(** The loop state: the pixel buffer and the position in the stream of
    [Math.random()] values. *)
Abbreviation state := (list Z * nat)%type.

Definition on_pixels {A} (m : SM (list Z) A) : SM state A :=
  fun '(p, k) => match m p with
                 | inl e => inl e
                 | inr (a, p') => inr (a, (p', k))
                 end.

Definition Math_random (random : nat -> Q) : SM state Q :=
  fun '(p, k) => inr (random k, (p, S k)).

Definition BAYER_4X4 : list (list Z) :=
  [[  0; 128;  32; 160];
   [192;  64; 224;  96];
   [ 48; 176;  16; 144];
   [240; 112; 208;  80]].

Definition applyOrderedDithering (random : nat -> Q) (oldPixel : Z * Z * Z)
    (x y step : Z) (palette : list color) : SM state color :=
  let bayerX := (x / step) mod 4 in
  let bayerY := (y / step) mod 4 in
  let threshold :=
    match BAYER_4X4 !! Z.to_nat bayerY with
    | Some bayerRow => default 128 (bayerRow !! Z.to_nat bayerX)
    | None => 128
    end in
  rR <- Math_random random ;;
  let noiseR := ((rR * 2 - 1) * (inject_Z threshold / inject_Z 255) * inject_Z 32)%Q in
  rG <- Math_random random ;;
  let noiseG := ((rG * 2 - 1) * (inject_Z threshold / inject_Z 255) * inject_Z 32)%Q in
  rB <- Math_random random ;;
  let noiseB := ((rB * 2 - 1) * (inject_Z threshold / inject_Z 255) * inject_Z 32)%Q in
  let '(o0, o1, o2) := oldPixel in
  let noisyPixel := (clamp255 (inject_Z o0 + noiseR)%Q,
                     clamp255 (inject_Z o1 + noiseG)%Q,
                     clamp255 (inject_Z o2 + noiseB)%Q) in
  lift_exn (findClosestColor noisyPixel palette).

Definition fillPixelBlock (x y width height step : Z) (blockColor : color)
    : SM (list Z) unit :=
  let '(c0, c1, c2) := blockColor in
  mfor (js_for y (Z.min (y + step) height) 1) (fun by' =>
    mfor (js_for x (Z.min (x + step) width) 1) (fun bx =>
      when (negb (by' =? y) || negb (bx =? x))
        (let blockI := (by' * width + bx) * 4 in
         set_px blockI (inject_Z c0) ;;;
         set_px (blockI + 1) (inject_Z c1) ;;;
         set_px (blockI + 2) (inject_Z c2) ;;;
         set_px (blockI + 3) (inject_Z 255)))).

Definition anchor (random : nat -> Q) (x y width height : Z)
    (palette : list color) (step : Z) : SM state unit :=
  let i := (y * width + x) * 4 in
  o0 <- on_pixels (get_px i) ;;
  o1 <- on_pixels (get_px (i + 1)) ;;
  o2 <- on_pixels (get_px (i + 2)) ;;
  newPixel <- applyOrderedDithering random (o0, o1, o2) x y step palette ;;
  let '(n0, n1, n2) := newPixel in
  on_pixels (set_px i (inject_Z n0) ;;;
             set_px (i + 1) (inject_Z n1) ;;;
             set_px (i + 2) (inject_Z n2) ;;;
             set_px (i + 3) (inject_Z 255) ;;;
             when (step >? 1) (fillPixelBlock x y width height step newPixel)).

Definition loop (random : nat -> Q) (width height : Z) (palette : list color)
    (step : Z) : SM state unit :=
  scan_blocks width height step (fun x y =>
    anchor random x y width height palette step).

Definition apply (w : World) (input : ImageData) (palette : list color) (step : Z)
    : World * (exn + ImageData) :=
  if (length palette =? 0)%nat then (w, inl EmptyPalette)
  else if step <? 1 then (w, inl InvalidStep)
  else
    let '(r, w1) := alloc_copy w (data input) in
    match loop (rand_draw w1) (width input) (height input) palette step
               (buffer_of w1 r, rand_pos w1) with
    | inl e => (w1, inl e)
    | inr (_, (pixels, k)) =>
        (mkWorld (<[r := pixels]> (heap w1)) (rand_draw w1) k,
         inr (mkImageData (width input) (height input) r))
    end.

End Ordered.

(** ** The algorithm registry (algorithmRegistry.ts) *)

(** The [DitherAlgorithm] interface. *)
Record DitherAlgorithm := mkDitherAlgorithm {
  name : string;
  alg_apply : World -> ImageData -> list color -> Z -> World * (exn + ImageData)
}.

Module Registry.

Definition register (algorithm : DitherAlgorithm)
    (algorithms : gmap string DitherAlgorithm) : gmap string DitherAlgorithm :=
  <[name algorithm := algorithm]> algorithms.

Definition get (nm : string) (algorithms : gmap string DitherAlgorithm)
    : option DitherAlgorithm :=
  algorithms !! nm.

Definition atkinsonAlgorithm : DitherAlgorithm :=
  mkDitherAlgorithm "atkinson" Atkinson.apply.
Definition floydSteinbergAlgorithm : DitherAlgorithm :=
  mkDitherAlgorithm "floyd-steinberg" FloydSteinberg.apply.
Definition orderedAlgorithm : DitherAlgorithm :=
  mkDitherAlgorithm "ordered" Ordered.apply.

(** The registry after module initialisation. *)
Definition algorithms : gmap string DitherAlgorithm :=
  register orderedAlgorithm (register floydSteinbergAlgorithm
    (register atkinsonAlgorithm ∅)).

End Registry.

(** ** The pipeline (imageProcessor.ts) *)

Record DitherOptions := mkDitherOptions {
  opt_algorithm : option string;
  opt_step : option Z;
  opt_quality : option Q;
  opt_width : option Z;
  opt_height : option Z;
  opt_palette : option (list color);
  opt_paletteImg : option positive
}.

Definition no_options : DitherOptions :=
  mkDitherOptions None None None None None None None.

Definition validAlgorithms : list string := ["atkinson"; "floyd-steinberg"; "ordered"].

Definition validateOptions (options : DitherOptions) : exn + unit :=
  if match opt_step options with Some s => s <=? 0 | None => false end
  then inl StepNotPositive
  else if match opt_quality options with
          | Some q => Qlt_bool q 0 || Qlt_bool 1 q | None => false end
  then inl InvalidQuality
  else if match opt_width options with Some v => v <=? 0 | None => false end
  then inl InvalidWidth
  else if match opt_height options with Some v => v <=? 0 | None => false end
  then inl InvalidHeight
  else if match opt_palette options with
          | Some p => (length p =? 0)%nat | None => false end
  then inl EmptyPalette
  else match opt_algorithm options with
       | Some a => if bool_decide (a ∈ validAlgorithms) then inr tt
                   else inl (InvalidAlgorithm a)
       | None => inr tt
       end.

Definition getAlgorithm (algorithms : gmap string DitherAlgorithm)
    (algorithmName : string) : exn + DitherAlgorithm :=
  match Registry.get algorithmName algorithms with
  | Some algorithm => inr algorithm
  | None => inl (UnknownAlgorithm algorithmName)
  end.

(** The external collaborator of the pipeline: [generatePalette] on a
    reference image, which loads the image (and fails when it cannot be
    loaded) before extracting its colours. *)
Record Collaborators := mkCollaborators {
  generatePalette : World -> positive -> exn + list color
}.

(** The image [applyResize] hands to [apply] when a bound is given. The
    source returns the Promise of the async [resizeImageData] without
    awaiting it, so [apply] receives the Promise itself: its [width],
    [height] and [data] are undefined. [apply] then copies
    [new Uint8ClampedArray(undefined)], an empty buffer; its loops
    [0 < undefined] never run; and [convertToUint8Array] allocates
    [undefined * undefined * 3 = NaN], that is 0, bytes. Width and height 0
    and a reference to no buffer give the same result in each of these
    reads. The Promise itself is never awaited, so its result is never
    used. *)
Definition pendingResize (w : World) : ImageData :=
  mkImageData 0 0 (fresh (dom (heap w))).

Definition applyResize (w : World) (imageData : ImageData)
    (options : DitherOptions) : ImageData :=
  let given o := match o with Some v => negb (v =? 0) | None => false end in
  if negb (given (opt_width options)) && negb (given (opt_height options))
  then imageData
  else pendingResize w.

Definition PALETTE_BW : list color := [(0, 0, 0); (255, 255, 255)].

Definition determinePalette (c : Collaborators) (w : World)
    (options : DitherOptions) : exn + list color :=
  match opt_palette options with
  | Some p => inr p
  | None => match opt_paletteImg options with
            | Some img => generatePalette c w img
            | None => inr PALETTE_BW
            end
  end.

(** [encodeWithQuality] (outputFormat.ts). *)
Definition encodeWithQuality (imageData : ImageData) (quality : Q) : exn + ImageData :=
  if Qlt_bool quality 0 || Qlt_bool 1 quality then inl InvalidQuality
  else inr imageData.

(** [rgbData[j] = v] on a Uint8Array: the value is taken modulo 256 and
    out-of-range writes are ignored. *)
Definition u8_write (rgbData : list Z) (j v : Z) : list Z :=
  if j <? 0 then rgbData else <[Z.to_nat j := v mod 256]> rgbData.

(** [convertToUint8Array] (outputFormat.ts): the RGB bytes of the
    buffer, in a [new Uint8Array(width * height * 3)]. A negative length
    throws a RangeError. *)
Definition convertToUint8Array (w : World) (imageData : ImageData) : exn + list Z :=
  let pixels := buffer_of w (data imageData) in
  let n := width imageData * height imageData * 3 in
  if n <? 0 then inl InvalidArrayLength
  else inr (fold_left (fun rgbData i =>
              let j := i / 4 * 3 in
              u8_write (u8_write (u8_write rgbData j (read pixels i))
                                 (j + 1) (read pixels (i + 1)))
                       (j + 2) (read pixels (i + 2)))
            (js_for 0 (Z.of_nat (length pixels)) 4)
            (repeat 0 (Z.to_nat n))).

(** [formatForEnvironment] without an explicit format, in Node.js: there
    is no [window], so the RGB bytes are returned. The engine's
    [createImageDataCrossPlatform] is modelled in its Node.js branch too
    (there is no global [ImageData]). *)
Definition formatForEnvironment (w : World) (imageData : ImageData) : exn + list Z :=
  convertToUint8Array w imageData.

(** [options.algorithm || 'atkinson'] *)
Definition algorithmNameOf (options : DitherOptions) : string :=
  match opt_algorithm options with
  | Some a => if bool_decide (a = ""%string) then "atkinson"%string else a
  | None => "atkinson"%string
  end.

(** [options.step || 1] *)
Definition stepOf (options : DitherOptions) : Z :=
  match opt_step options with
  | Some s => if s =? 0 then 1 else s
  | None => 1
  end.

(** Steps 6 and 7 of [ditherImage]: quality encoding, then the output
    format, on the result of [algorithm.apply]. *)
Definition encodeAndFormat (options : DitherOptions)
    (applied : World * (exn + ImageData)) : World * (exn + list Z) :=
  let '(w1, r) := applied in
  match r with
  | inl e => (w1, inl e)
  | inr ditheredData =>
      let qualityProcessedData :=
        match opt_quality options with
        | Some q => encodeWithQuality ditheredData q
        | None => inr ditheredData
        end in
      match qualityProcessedData with
      | inl e => (w1, inl e)
      | inr d => (w1, formatForEnvironment w1 d)
      end
  end.

(** [ditherImage] on an input that is already an ImageData
    ([loadInputImageData] returns it as it is). A thrown error is the
    rejection of the returned Promise. *)
Definition ditherImage (c : Collaborators)
    (algorithms : gmap string DitherAlgorithm) (w : World)
    (input : ImageData) (options : DitherOptions)
    : World * (exn + list Z) :=
  match validateOptions options with
  | inl e => (w, inl e)
  | inr _ =>
      let resizedData := applyResize w input options in
      match determinePalette c w options with
      | inl e => (w, inl e)
      | inr palette =>
          let algorithmName := algorithmNameOf options in
          match getAlgorithm algorithms algorithmName with
          | inl e => (w, inl e)
          | inr algorithm =>
              let step := stepOf options in
              encodeAndFormat options (alg_apply algorithm w resizedData palette step)
          end
      end
  end.

(** ** Palette utilities (palette/utils.ts) *)

(** [Math.round]: the nearest integer, halves rounded up. *)
Definition Math_round (x : Q) : Z := Qfloor (x + (1 # 2)).

(** The error thrown by [createGrayscalePalette]. *)
Inductive GrayscaleError :=
| FewerThanTwoLevels.  (* 'Grayscale palette must have at least 2 levels' *)

(** [createGrayscalePalette] for an integer number of levels. *)
Definition createGrayscalePalette (levels : Z) : GrayscaleError + list color :=
  if levels <? 2 then inl FewerThanTwoLevels
  else inr (map (fun i : nat =>
              let value := Math_round (inject_Z (Z.of_nat i) / inject_Z (levels - 1)
                                       * inject_Z 255) in
              (value, value, value))
            (seq 0 (Z.to_nat levels))).

(** ** Palette extraction (palette/extract.ts) *)

(** [colorSet.add(colorKey)] on a Set kept in insertion order; the key
    [`${r},${g},${b}`] of three byte values determines the triple. *)
Definition set_add (c : color) (colorSet : list color) : list color :=
  if bool_decide (c ∈ colorSet) then colorSet else colorSet ++ [c].

(** The [for (let i = 0; i < data.length; i += 4)] loop over the pixels,
    skipping those with alpha 0. An ImageData buffer holds 4 samples per
    pixel, so the loop never reads past its end. *)
Fixpoint collectColors (data : list Z) (colorSet : list color) : list color :=
  match data with
  | r :: g :: b :: a :: rest =>
      collectColors rest (if a =? 0 then colorSet else set_add (r, g, b) colorSet)
  | _ => colorSet
  end.

Definition luminance (c : color) : Q :=
  let '(r, g, b) := c in
  ((299 # 1000) * inject_Z r + (587 # 1000) * inject_Z g + (114 # 1000) * inject_Z b)%Q.

(** [palette.sort((a, b) => luminanceA - luminanceB)]: a stable sort
    by luminance, as an insertion sort that puts an element after every
    earlier one of equal luminance. *)
Fixpoint insertByLuminance (c : color) (l : list color) : list color :=
  match l with
  | [] => [c]
  | d :: l' => if Qlt_bool (luminance c) (luminance d) then c :: l
               else d :: insertByLuminance c l'
  end.

Definition sortByLuminance (l : list color) : list color :=
  fold_left (fun acc c => insertByLuminance c acc) l [].

(** [extractColorsFromImageData]; parsing a key back splits it into the
    same three numbers, so the [map] step neither throws nor changes a
    colour. *)
Definition extractColorsFromImageData (data : list Z) : list color :=
  sortByLuminance (collectColors data []).

(** ** Image dimensions (imageIO.ts) *)

Inductive Fit := Contain | Cover.

Record ResizeOptions := mkResizeOptions {
  ro_width : option Q;
  ro_height : option Q;
  ro_fit : option Fit
}.

(** A number option in a JavaScript condition: [undefined] and [0] are
    falsy. *)
Definition truthy (o : option Q) : bool :=
  match o with Some v => negb (Qeq_bool v 0) | None => false end.

Definition calculateResizeDimensions (originalWidth originalHeight : Q)
    (options : ResizeOptions) : Q * Q :=
  if negb (truthy (ro_width options)) && negb (truthy (ro_height options))
  then (originalWidth, originalHeight)
  else
    let maxWidth := ro_width options in
    let maxHeight := ro_height options in
    let fit := default Contain (ro_fit options) in
    let aspectRatio := (originalWidth / originalHeight)%Q in
    if truthy maxWidth && truthy maxHeight then
      let mW := default 0%Q maxWidth in
      let mH := default 0%Q maxHeight in
      match fit with
      | Contain =>
          let scaleWidth := (mW / originalWidth)%Q in
          let scaleHeight := (mH / originalHeight)%Q in
          let scale := Qmin scaleWidth scaleHeight in
          (inject_Z (Math_round (originalWidth * scale)),
           inject_Z (Math_round (originalHeight * scale)))
      | Cover =>
          let scaleWidth := (mW / originalWidth)%Q in
          let scaleHeight := (mH / originalHeight)%Q in
          let scale := Qmax scaleWidth scaleHeight in
          (inject_Z (Math_round (originalWidth * scale)),
           inject_Z (Math_round (originalHeight * scale)))
      end
    else if truthy maxWidth then
      let mW := default 0%Q maxWidth in
      (mW, inject_Z (Math_round (mW / aspectRatio)))
    else if truthy maxHeight then
      let mH := default 0%Q maxHeight in
      (inject_Z (Math_round (mH * aspectRatio)), mH)
    else (originalWidth, originalHeight).

(** The errors thrown by [validateImageDimensions]. *)
Inductive DimensionError :=
| InvalidDimensions     (* 'Invalid image dimensions: ...' *)
| DimensionsTooLarge    (* 'Image dimensions too large: ...' *)
| DimensionsNotInteger. (* 'Image dimensions must be integers: ...' *)

(** [Number.isInteger]. *)
Definition isInteger (x : Q) : bool := Qeq_bool (inject_Z (Qfloor x)) x.

Definition validateImageDimensions (width height : Q) : DimensionError + unit :=
  if Qle_bool width 0 || Qle_bool height 0 then inl InvalidDimensions
  else if Qlt_bool 8192 width || Qlt_bool 8192 height then inl DimensionsTooLarge
  else if negb (isInteger width) || negb (isInteger height) then inl DimensionsNotInteger
  else inr tt.

(** ** Predicates used in the statements *)

(** A loop fragment that never throws. *)
Definition total {S A} (m : SM S A) : Prop :=
  forall s, exists a s', m s = inr (a, s').

(** What a caller observes of an [apply] call: the error, or the
    dimensions and the bytes of the returned buffer. *)
Definition observe (res : World * (exn + ImageData))
    : exn + (Z * Z * option (list Z)) :=
  match snd res with
  | inl e => inl e
  | inr img => inr (width img, height img, heap (fst res) !! data img)
  end.

(** Run a buffer-level fragment that cannot throw and keep the buffer. *)
Definition exec {A} (m : SM (list Z) A) (pixels : list Z) : list Z :=
  match m pixels with inr (_, p') => p' | inl _ => pixels end.

(** The index of channel [c] of pixel [(x, y)]. *)
Definition pidx (width x y c : Z) : Z := (y * width + x) * 4 + c.

(** The channel [c] component of an error triple. *)
Definition channel (c errorR errorG errorB : Z) : Z :=
  if c =? 0 then errorR else if c =? 1 then errorG else errorB.

(** The Floyd-Steinberg kernel as the claim states it: the weight given
    to pixel [(px, py)] by the anchor [(x, y)]. *)
Definition fs_kernel (x y step px py : Z) : option Q :=
  if (px =? x + step) && (py =? y) then Some (7 # 16)%Q
  else if (px =? x - step) && (py =? y + step) then Some (3 # 16)%Q
  else if (px =? x) && (py =? y + step) then Some (5 # 16)%Q
  else if (px =? x + step) && (py =? y + step) then Some (1 # 16)%Q
  else None.

(** All samples are bytes. *)
Definition bytes (pixels : list Z) : Prop := Forall (fun v => 0 <= v <= 255) pixels.

(** A fragment that keeps every sample a byte. *)
Definition keeps_bytes {A} (m : SM (list Z) A) : Prop :=
  forall p a p', bytes p -> m p = inr (a, p') -> bytes p'.

(** A fragment that leaves sample [j] of the buffer as it is. *)
Definition keeps_at {A} (j : Z) (m : SM (list Z) A) : Prop :=
  forall p a p', m p = inr (a, p') -> read p' j = read p j.

(** A 2x2 image whose anchor (0, 0) is black and whose other three
    pixels are grey (100, 100, 100) with alpha 0, stored at reference 1. *)
Definition grey_world : World :=
  mkWorld {[1%positive := [0; 0; 0; 0; 100; 100; 100; 0;
                           100; 100; 100; 0; 100; 100; 100; 0]]}
          (fun _ => 0%Q) 0.

Definition grey_input : ImageData := mkImageData 2 2 1.



Definition hoare {S A} (P : S -> Prop) (m : SM S A) (Q : S -> Prop) : Prop :=
  forall s a s', P s -> m s = inr (a, s') -> Q s'.

Definition frame {S A} (pix : S -> list Z) (j : Z) (m : SM S A) : Prop :=
  forall s a s', m s = inr (a, s') -> read (pix s') j = read (pix s) j.

Definition writes_within {S A} (pix : S -> list Z) (width : Z)
    (R : Z -> Z -> Prop) (m : SM S A) : Prop :=
  forall qx qy c, 0 <= qx < width -> 0 <= c < 4 -> ~ R qx qy ->
    frame pix (pidx width qx qy c) m.

Definition px_rgb (p : list Z) (width x y : Z) : color :=
  (read p (pidx width x y 0), read p (pidx width x y 1), read p (pidx width x y 2)).

Definition palette_bytes (palette : list color) : Prop :=
  Forall (fun '(r, g, b) => 0 <= r <= 255 /\ 0 <= g <= 255 /\ 0 <= b <= 255) palette.

Definition block_ok (palette : list color) (width x0 y0 px py : Z) (p : list Z) : Prop :=
  px_rgb p width x0 y0 ∈ palette /\ px_rgb p width px py = px_rgb p width x0 y0 /\
  read p (pidx width px py 3) = 255.


Definition len_is (n : nat) (p : list Z) : Prop := length p = n.

Definition block_write (x y width c0 c1 c2 by' bx : Z) : SM (list Z) unit :=
  when (negb (by' =? y) || negb (bx =? x))
    (let blockI := (by' * width + bx) * 4 in
     set_px blockI (inject_Z c0) ;;;
     set_px (blockI + 1) (inject_Z c1) ;;;
     set_px (blockI + 2) (inject_Z c2) ;;;
     set_px (blockI + 3) (inject_Z 255)).

(** The pixels the block scan body at [(x, y)] may write. *)
Definition later_region (x y step : Z) (a b : Z) : Prop :=
  (x <= a /\ y <= b) \/ y + step <= b.

Definition advances {A} (c : nat) (m : SM Ordered.state A) : Prop :=
  forall s a s', m s = inr (a, s') -> snd s' = (snd s + c)%nat.

Definition builtin_algorithms : list DitherAlgorithm :=
  [Registry.atkinsonAlgorithm; Registry.floydSteinbergAlgorithm; Registry.orderedAlgorithm].

(** The pixel [k] of a buffer is opaque with colour [c]. *)
Definition opaque_pixel (data : list Z) (c : color) : Prop :=
  let '(r, g, b) := c in
  exists (k : nat) a, data !! (4 * k)%nat = Some r /\ data !! (4 * k + 1)%nat = Some g /\
    data !! (4 * k + 2)%nat = Some b /\ data !! (4 * k + 3)%nat = Some a /\ a <> 0.


(** * Properties *)

(** ** Numbers *)

Lemma Qlt_bool_iff (a b : Q) : Qlt_bool a b = true <-> (a < b)%Q.
Proof.
  unfold Qlt_bool. rewrite negb_true_iff. split.
  - intros H. apply Qnot_le_lt. intros Hle. apply Qle_bool_iff in Hle. congruence.
  - intros H. destruct (Qle_bool b a) eqn:E; [|reflexivity].
    apply Qle_bool_iff in E. exfalso. apply (Qlt_not_le _ _ H E).
Qed.

Lemma Qlt_bool_false (a b : Q) : Qlt_bool a b = false <-> (b <= a)%Q.
Proof.
  unfold Qlt_bool. rewrite negb_false_iff. apply Qle_bool_iff.
Qed.

Lemma ToUint8Clamp_range (q : Q) : 0 <= ToUint8Clamp q <= 255.
Proof.
  unfold ToUint8Clamp.
  destruct (Qle_bool q 0) eqn:E0; [lia|].
  destruct (Qle_bool (inject_Z 255) q) eqn:E1; [lia|].
  assert (Hq0 : (0 < q)%Q).
  { apply Qnot_le_lt. intros H. apply Qle_bool_iff in H. congruence. }
  assert (Hq1 : (q < inject_Z 255)%Q).
  { apply Qnot_le_lt. intros H. apply Qle_bool_iff in H. congruence. }
  pose proof (Qfloor_le q) as Hf. pose proof (Qlt_floor q) as Hf'.
  assert (Hlo : 0 <= Qfloor q).
  { destruct (Z_lt_le_dec (Qfloor q) 0) as [Hn|Hn]; [|exact Hn].
    exfalso. assert (H1 : Qfloor q + 1 <= 0) by lia.
    rewrite Zle_Qle in H1.
    apply (Qlt_irrefl 0). apply Qlt_le_trans with q; [exact Hq0|].
    apply Qlt_le_weak. apply Qlt_le_trans with (inject_Z (Qfloor q + 1)); assumption. }
  assert (Hhi : Qfloor q < 255).
  { rewrite Zlt_Qlt. apply Qle_lt_trans with q; assumption. }
  repeat match goal with |- context [if ?b then _ else _] => destruct b end; lia.
Qed.

(** ** findClosestColor: the first entry at minimum distance *)

Lemma closest_loop_cases (pixel : Q * Q * Q) (l : list color) (mo : option Q) (c : color) :
  let r := closest_loop pixel l mo c in
  (exists k, l !! k = Some r
     /\ (forall j d, l !! j = Some d -> (dist2 pixel r <= dist2 pixel d)%Q)
     /\ (forall j d, (j < k)%nat -> l !! j = Some d -> (dist2 pixel r < dist2 pixel d)%Q)
     /\ (forall m, mo = Some m -> (dist2 pixel r < m)%Q))
  \/ (r = c /\ forall d m, In d l -> mo = Some m -> (m <= dist2 pixel d)%Q).
Proof.
  revert mo c. induction l as [|c' rest IH]; intros mo c; simpl.
  - right. split; [reflexivity|]. intros d m [].
  - destruct (match mo with None => true | Some m => Qlt_bool (dist2 pixel c') m end) eqn:Eb.
    + destruct (IH (Some (dist2 pixel c')) c') as
        [(k & Hk & Hmin & Hfirst & Hb) | (Hr & Hnone)].
      * left. exists (S k). repeat split.
        -- exact Hk.
        -- intros [|j] d Hd; simpl in Hd.
           ++ injection Hd as <-. apply Qlt_le_weak. apply Hb. reflexivity.
           ++ eapply Hmin; eauto.
        -- intros [|j] d Hj Hd; simpl in Hd.
           ++ injection Hd as <-. apply Hb. reflexivity.
           ++ apply (Hfirst j); [lia|exact Hd].
        -- intros m ->. apply Qlt_bool_iff in Eb.
           apply Qlt_trans with (dist2 pixel c'); [apply Hb; reflexivity|exact Eb].
      * left. exists O. rewrite Hr. repeat split.
        -- intros [|j] d Hd; simpl in Hd.
           ++ injection Hd as <-. apply Qle_refl.
           ++ apply (Hnone d); [eapply list_elem_of_lookup_2 in Hd;
                                 apply list_elem_of_In; exact Hd|reflexivity].
        -- intros j d Hj. lia.
        -- intros m ->. apply Qlt_bool_iff. exact Eb.
    + destruct mo as [m|]; [|discriminate].
      apply Qlt_bool_false in Eb.
      destruct (IH (Some m) c) as [(k & Hk & Hmin & Hfirst & Hb) | (Hr & Hnone)].
      * left. exists (S k). repeat split.
        -- exact Hk.
        -- intros [|j] d Hd; simpl in Hd.
           ++ injection Hd as <-. apply Qlt_le_weak.
              apply Qlt_le_trans with m; [apply Hb; reflexivity|exact Eb].
           ++ eapply Hmin; eauto.
        -- intros [|j] d Hj Hd; simpl in Hd.
           ++ injection Hd as <-.
              apply Qlt_le_trans with m; [apply Hb; reflexivity|exact Eb].
           ++ apply (Hfirst j); [lia|exact Hd].
        -- exact Hb.
      * right. split; [exact Hr|].
        intros d m' [<-|Hin] Hm; injection Hm as <-; [exact Eb|].
        eapply Hnone; [exact Hin|reflexivity].
Qed.

Lemma findClosestColor_spec (pixel : Q * Q * Q) (palette : list color) :
  palette <> [] ->
  exists k c, findClosestColor pixel palette = inr c
    /\ palette !! k = Some c
    /\ (forall j d, palette !! j = Some d -> (dist2 pixel c <= dist2 pixel d)%Q)
    /\ (forall j d, (j < k)%nat -> palette !! j = Some d -> (dist2 pixel c < dist2 pixel d)%Q).
Proof.
  intros Hne. destruct palette as [|c0 rest]; [congruence|].
  unfold findClosestColor. simpl.
  destruct (closest_loop_cases pixel rest (Some (dist2 pixel c0)) c0) as
    [(k & Hk & Hmin & Hfirst & Hb) | (Hr & Hnone)].
  - exists (S k), (closest_loop pixel rest (Some (dist2 pixel c0)) c0).
    repeat split.
    + exact Hk.
    + intros [|j] d Hd; simpl in Hd.
      * injection Hd as <-. apply Qlt_le_weak. apply Hb. reflexivity.
      * eapply Hmin; eauto.
    + intros [|j] d Hj Hd; simpl in Hd.
      * injection Hd as <-. apply Hb. reflexivity.
      * apply (Hfirst j); [lia|exact Hd].
  - exists O, c0. rewrite Hr. repeat split.
    + intros [|j] d Hd; simpl in Hd.
      * injection Hd as <-. apply Qle_refl.
      * apply (Hnone d); [|reflexivity].
        apply list_elem_of_In. eapply list_elem_of_lookup_2. exact Hd.
    + intros j d Hj. lia.
Qed.

(** Claim C7: findClosestColor scans the palette left to right and returns
    the first entry at minimum Euclidean distance; with the black/white
    palette, [127,127,127] gives black (tie, first wins) and
    [128,128,128] gives white. *)
Theorem findClosestColor_first_min (pixel : Q * Q * Q) (palette : list color)
    (Hne : palette <> []) :
  (exists k c, findClosestColor pixel palette = inr c
    /\ palette !! k = Some c
    /\ (forall j d, palette !! j = Some d -> (dist2 pixel c <= dist2 pixel d)%Q)
    /\ (forall j d, (j < k)%nat -> palette !! j = Some d ->
                    (dist2 pixel c < dist2 pixel d)%Q))
  /\ findClosestColor (injZ3 (127, 127, 127)) PALETTE_BW = inr (0, 0, 0)
  /\ findClosestColor (injZ3 (128, 128, 128)) PALETTE_BW = inr (255, 255, 255).
Proof.
  split; [apply findClosestColor_spec; exact Hne|].
  split; vm_compute; reflexivity.
Qed.

Lemma findClosestColor_first_min_witness :
  PALETTE_BW <> [] /\
  findClosestColor (injZ3 (127, 127, 127)) PALETTE_BW = inr (0, 0, 0).
Proof.
  split; [discriminate|].
  apply (findClosestColor_first_min (injZ3 (127, 127, 127)) PALETTE_BW).
  discriminate.
Defined.

(** ** Loops that cannot throw *)

Lemma total_ret {S A} (a : A) : total (@ret S A a).
Proof. intros s. eexists _, _. reflexivity. Qed.

Lemma total_bind {S A B} (m : SM S A) (k : A -> SM S B) :
  total m -> (forall a, total (k a)) -> total (bind m k).
Proof.
  intros Hm Hk s. destruct (Hm s) as (a & s' & E).
  unfold bind. rewrite E. apply Hk.
Qed.

Lemma total_when {S} (b : bool) (m : SM S unit) : total m -> total (when b m).
Proof. intros H. destruct b; [exact H|apply total_ret]. Qed.

Lemma total_mfor {S} (l : list Z) (body : Z -> SM S unit) :
  (forall v, total (body v)) -> total (mfor l body).
Proof.
  intros H. induction l as [|v rest IH]; simpl.
  - apply total_ret.
  - apply total_bind; [apply H|intros; exact IH].
Qed.

Lemma total_get_px i : total (get_px i).
Proof. intros s. eexists _, _. reflexivity. Qed.

Lemma total_set_px i v : total (set_px i v).
Proof. intros s. eexists _, _. reflexivity. Qed.

Lemma total_findClosestColor {S} (pixel : Q * Q * Q) (palette : list color) :
  palette <> [] -> total (S := S) (lift_exn (findClosestColor pixel palette)).
Proof.
  intros Hne s. destruct palette; [congruence|].
  eexists _, _. reflexivity.
Qed.

Lemma total_let3 {S A} (c : Z * Z * Z) (k : Z -> Z -> Z -> SM S A) :
  (forall a b d, total (k a b d)) -> total (let '(a, b, d) := c in k a b d).
Proof. intros H. destruct c as [[a b] d]. apply H. Qed.

Ltac total_tac :=
  repeat first
    [ apply total_bind; [|intros]
    | apply total_when
    | apply total_ret
    | apply total_get_px
    | apply total_set_px
    | apply total_mfor; intros
    | match goal with |- total (match ?c with _ => _ end) => destruct c end ].

Lemma total_applyError index eR eG eB f : total (applyError index eR eG eB f).
Proof. unfold applyError. total_tac. Qed.

Lemma total_quantizeAnchor x y width palette :
  palette <> [] -> total (quantizeAnchor x y width palette).
Proof.
  intros Hne. unfold quantizeAnchor.
  apply total_bind; [apply total_get_px|intros o0].
  apply total_bind; [apply total_get_px|intros o1].
  apply total_bind; [apply total_get_px|intros o2].
  apply total_bind; [apply total_findClosestColor; exact Hne|intros [[n0 n1] n2]].
  total_tac.
Qed.

Lemma Atkinson_loop_total width height palette step :
  palette <> [] -> total (Atkinson.loop width height palette step).
Proof.
  intros Hne. unfold Atkinson.loop, scan_blocks.
  apply total_mfor; intros y. apply total_mfor; intros x.
  unfold Atkinson.processPixel.
  apply total_bind; [apply total_quantizeAnchor; exact Hne|intros [[eR eG] eB]].
  unfold Atkinson.distributeAtkinsonError.
  repeat (apply total_bind; [apply total_when, total_applyError|intros]).
  apply total_when, total_applyError.
Qed.

Lemma FloydSteinberg_loop_total width height palette step :
  palette <> [] -> total (FloydSteinberg.loop width height palette step).
Proof.
  intros Hne. unfold FloydSteinberg.loop, scan_blocks.
  apply total_mfor; intros y. apply total_mfor; intros x.
  apply total_bind; [|intros; apply total_when].
  - unfold FloydSteinberg.processPixel.
    apply total_bind; [apply total_quantizeAnchor; exact Hne|intros [[eR eG] eB]].
    unfold FloydSteinberg.distributeFloydSteinbergError.
    repeat (apply total_bind; [apply total_when, total_applyError|intros]).
    apply total_when, total_applyError.
  - unfold FloydSteinberg.fillPixelBlock. total_tac.
Qed.

Lemma total_on_pixels {A} (m : SM (list Z) A) : total m -> total (Ordered.on_pixels m).
Proof.
  intros H [p k]. destruct (H p) as (a & p' & E).
  exists a, (p', k). unfold Ordered.on_pixels. rewrite E. reflexivity.
Qed.

Lemma Ordered_loop_total random width height palette step :
  palette <> [] -> total (Ordered.loop random width height palette step).
Proof.
  intros Hne. unfold Ordered.loop, scan_blocks.
  apply total_mfor; intros y. apply total_mfor; intros x.
  unfold Ordered.anchor.
  repeat (apply total_bind; [apply total_on_pixels, total_get_px|intros]).
  apply total_bind; [|intros [[n0 n1] n2]].
  - unfold Ordered.applyOrderedDithering.
    repeat (apply total_bind; [intros [p k]; eexists _, _; reflexivity|intros]).
    cbv beta iota. apply total_findClosestColor. exact Hne.
  - apply total_on_pixels. unfold Ordered.fillPixelBlock. total_tac.
Qed.

(** ** Validation in [apply] *)

Lemma run_apply_validation loop w input palette step :
  (palette = [] -> run_apply loop w input palette step = (w, inl EmptyPalette))
  /\ (palette <> [] -> step < 1 -> run_apply loop w input palette step = (w, inl InvalidStep))
  /\ (palette <> [] -> 1 <= step -> total loop ->
      exists w' r, run_apply loop w input palette step = (w', inr r)).
Proof.
  unfold run_apply. repeat split.
  - intros ->. reflexivity.
  - intros Hne Hs.
    assert (E : (length palette =? 0)%nat = false) by (destruct palette; [congruence|reflexivity]).
    rewrite E. replace (step <? 1) with true by lia. reflexivity.
  - intros Hne Hs Ht.
    assert (E : (length palette =? 0)%nat = false) by (destruct palette; [congruence|reflexivity]).
    rewrite E. replace (step <? 1) with false by lia.
    destruct (alloc_copy w (data input)) as [r w1].
    destruct (Ht (buffer_of w1 r)) as ([] & pix & ->). eauto.
Qed.

Lemma Ordered_apply_validation w input palette step :
  (palette = [] -> Ordered.apply w input palette step = (w, inl EmptyPalette))
  /\ (palette <> [] -> step < 1 -> Ordered.apply w input palette step = (w, inl InvalidStep))
  /\ (palette <> [] -> 1 <= step ->
      exists w' r, Ordered.apply w input palette step = (w', inr r)).
Proof.
  unfold Ordered.apply. repeat split.
  - intros ->. reflexivity.
  - intros Hne Hs.
    assert (E : (length palette =? 0)%nat = false) by (destruct palette; [congruence|reflexivity]).
    rewrite E. replace (step <? 1) with true by lia. reflexivity.
  - intros Hne Hs.
    assert (E : (length palette =? 0)%nat = false) by (destruct palette; [congruence|reflexivity]).
    rewrite E. replace (step <? 1) with false by lia.
    destruct (alloc_copy w (data input)) as [r w1].
    destruct (Ordered_loop_total (rand_draw w1) (width input) (height input)
                palette step Hne (buffer_of w1 r, rand_pos w1))
      as ([] & [p k] & ->). eauto.
Qed.

(** Claim C4: every [apply] rejects an empty palette with
    EmptyPaletteError and, for a non-empty palette, a step below 1 with
    InvalidStepError, returning the caller's store untouched (no buffer
    allocated, read or written); with a non-empty palette and step >= 1
    no error is raised. *)
Theorem apply_input_validation (w : World) (input : ImageData)
    (palette : list color) (step : Z) :
  (palette = [] ->
     Atkinson.apply w input palette step = (w, inl EmptyPalette)
     /\ FloydSteinberg.apply w input palette step = (w, inl EmptyPalette)
     /\ Ordered.apply w input palette step = (w, inl EmptyPalette))
  /\ (palette <> [] -> step < 1 ->
     Atkinson.apply w input palette step = (w, inl InvalidStep)
     /\ FloydSteinberg.apply w input palette step = (w, inl InvalidStep)
     /\ Ordered.apply w input palette step = (w, inl InvalidStep))
  /\ (palette <> [] -> 1 <= step ->
     (exists w' r, Atkinson.apply w input palette step = (w', inr r))
     /\ (exists w' r, FloydSteinberg.apply w input palette step = (w', inr r))
     /\ (exists w' r, Ordered.apply w input palette step = (w', inr r))).
Proof.
  unfold Atkinson.apply, FloydSteinberg.apply.
  destruct (run_apply_validation (Atkinson.loop (width input) (height input) palette step)
              w input palette step) as (A1 & A2 & A3).
  destruct (run_apply_validation (FloydSteinberg.loop (width input) (height input) palette step)
              w input palette step) as (F1 & F2 & F3).
  destruct (Ordered_apply_validation w input palette step) as (O1 & O2 & O3).
  repeat split; intros; auto.
  - apply A3; auto. apply Atkinson_loop_total; auto.
  - apply F3; auto. apply FloydSteinberg_loop_total; auto.
Qed.

Lemma apply_input_validation_witness :
  let w := mkWorld {[ 1%positive := [0; 0; 0; 255] ]} (fun _ => 0%Q) 0 in
  let input := mkImageData 1 1 1 in
  Atkinson.apply w input [] 1 = (w, inl EmptyPalette)
  /\ Ordered.apply w input PALETTE_BW 0 = (w, inl InvalidStep).
Proof.
  intros w input. split.
  - apply (apply_input_validation w input [] 1). reflexivity.
  - apply (apply_input_validation w input PALETTE_BW 0); [discriminate|lia].
Defined.

(** ** Allocation and the caller's buffer *)

Lemma alloc_copy_fresh w src :
  fst (alloc_copy w src) ∉ dom (heap w).
Proof. unfold alloc_copy. simpl. apply is_fresh. Qed.

Lemma alloc_copy_heap w src :
  heap (snd (alloc_copy w src))
  = <[fst (alloc_copy w src) := default [] (heap w !! src)]> (heap w).
Proof. reflexivity. Qed.

Lemma alloc_copy_buffer w src :
  buffer_of (snd (alloc_copy w src)) (fst (alloc_copy w src))
  = default [] (heap w !! src).
Proof. unfold buffer_of. rewrite alloc_copy_heap. rewrite lookup_insert_eq. reflexivity. Qed.

Lemma fresh_ne (w : World) (src : positive) (buf : list Z) :
  heap w !! src = Some buf -> fst (alloc_copy w src) <> src.
Proof.
  intros Hin Heq. apply (alloc_copy_fresh w src). rewrite Heq.
  apply elem_of_dom. eauto.
Qed.

Lemma run_apply_frame loop w input palette step buf w' res :
  heap w !! data input = Some buf ->
  run_apply loop w input palette step = (w', res) ->
  heap w' !! data input = Some buf
  /\ (forall r, res = inr r -> data r <> data input /\ data r ∉ dom (heap w)).
Proof.
  intros Hin. unfold run_apply.
  destruct (length palette =? 0)%nat; [intros [= <- <-]; split; [exact Hin|discriminate]|].
  destruct (step <? 1); [intros [= <- <-]; split; [exact Hin|discriminate]|].
  pose proof (fresh_ne w (data input) buf Hin) as Hne.
  pose proof (alloc_copy_fresh w (data input)) as Hfr.
  destruct (alloc_copy w (data input)) as [r w1] eqn:Ea.
  pose proof (alloc_copy_heap w (data input)) as Hh. try rewrite Ea in Hh; try rewrite Ea in Hne; try rewrite Ea in Hfr; simpl in *.
  destruct (loop (buffer_of w1 r)) as [e|[[] pixels]].
  - intros [= <- <-]. split; [|discriminate].
    rewrite Hh. rewrite lookup_insert_ne by congruence. exact Hin.
  - intros [= <- <-]. split.
    + simpl. rewrite lookup_insert_ne by congruence.
      rewrite Hh. rewrite lookup_insert_ne by congruence. exact Hin.
    + intros r' [= <-]. simpl. auto.
Qed.

Lemma Ordered_apply_frame w input palette step buf w' res :
  heap w !! data input = Some buf ->
  Ordered.apply w input palette step = (w', res) ->
  heap w' !! data input = Some buf
  /\ (forall r, res = inr r -> data r <> data input /\ data r ∉ dom (heap w)).
Proof.
  intros Hin. unfold Ordered.apply.
  destruct (length palette =? 0)%nat; [intros [= <- <-]; split; [exact Hin|discriminate]|].
  destruct (step <? 1); [intros [= <- <-]; split; [exact Hin|discriminate]|].
  pose proof (fresh_ne w (data input) buf Hin) as Hne.
  pose proof (alloc_copy_fresh w (data input)) as Hfr.
  destruct (alloc_copy w (data input)) as [r w1] eqn:Ea.
  pose proof (alloc_copy_heap w (data input)) as Hh. try rewrite Ea in Hh; try rewrite Ea in Hne; try rewrite Ea in Hfr; simpl in *.
  destruct (Ordered.loop (rand_draw w1) (width input) (height input) palette step
              (buffer_of w1 r, rand_pos w1)) as [e|[[] [pixels k]]].
  - intros [= <- <-]. split; [|discriminate].
    rewrite Hh. rewrite lookup_insert_ne by congruence. exact Hin.
  - intros [= <- <-]. split.
    + simpl. rewrite lookup_insert_ne by congruence.
      rewrite Hh. rewrite lookup_insert_ne by congruence. exact Hin.
    + intros r' [= <-]. simpl. auto.
Qed.

(** Claim C6: no [apply] mutates the caller's input buffer; the returned
    image refers to a freshly allocated buffer, distinct from the input
    and from every buffer that existed before the call. *)
Theorem apply_input_immutable (w : World) (input : ImageData)
    (palette : list color) (step : Z) (buf : list Z)
    (Hin : heap w !! data input = Some buf) :
  (forall w' res, Atkinson.apply w input palette step = (w', res) ->
     heap w' !! data input = Some buf
     /\ (forall r, res = inr r -> data r <> data input /\ data r ∉ dom (heap w)))
  /\ (forall w' res, FloydSteinberg.apply w input palette step = (w', res) ->
     heap w' !! data input = Some buf
     /\ (forall r, res = inr r -> data r <> data input /\ data r ∉ dom (heap w)))
  /\ (forall w' res, Ordered.apply w input palette step = (w', res) ->
     heap w' !! data input = Some buf
     /\ (forall r, res = inr r -> data r <> data input /\ data r ∉ dom (heap w))).
Proof.
  split; [|split]; intros w' res.
  - apply run_apply_frame. exact Hin.
  - apply run_apply_frame. exact Hin.
  - apply Ordered_apply_frame. exact Hin.
Qed.

Lemma apply_input_immutable_witness :
  let w := mkWorld {[ 1%positive := [100; 100; 100; 0] ]} (fun _ => 0%Q) 0 in
  let input := mkImageData 1 1 1 in
  heap (fst (FloydSteinberg.apply w input PALETTE_BW 1)) !! 1%positive
  = Some [100; 100; 100; 0].
Proof.
  intros w input.
  refine (proj1 (proj1 (proj2 (apply_input_immutable w input PALETTE_BW 1
            [100; 100; 100; 0] eq_refl)) _ _ _)).
  apply surjective_pairing.
Defined.

(** ** Determinism of the diffusion algorithms *)

Lemma run_apply_observe loop w input palette step :
  observe (run_apply loop w input palette step)
  = if (length palette =? 0)%nat then inl EmptyPalette
    else if step <? 1 then inl InvalidStep
    else match loop (default [] (heap w !! data input)) with
         | inl e => inl e
         | inr (_, pixels) => inr (width input, height input, Some pixels)
         end.
Proof.
  unfold run_apply.
  destruct (length palette =? 0)%nat; [reflexivity|].
  destruct (step <? 1); [reflexivity|].
  rewrite <- (alloc_copy_buffer w (data input)).
  destruct (alloc_copy w (data input)) as [r w1]. simpl.
  destruct (loop (buffer_of w1 r)) as [e|[[] pixels]]; [reflexivity|].
  unfold observe. simpl. rewrite lookup_insert_eq. reflexivity.
Qed.

Lemma run_apply_deterministic loop w1 w2 input palette step :
  heap w1 !! data input = heap w2 !! data input ->
  observe (run_apply loop w1 input palette step)
  = observe (run_apply loop w2 input palette step).
Proof. intros H. rewrite !run_apply_observe, H. reflexivity. Qed.

Lemma run_apply_again loop w input palette step buf :
  heap w !! data input = Some buf ->
  observe (run_apply loop (fst (run_apply loop w input palette step)) input palette step)
  = observe (run_apply loop w input palette step).
Proof.
  intros Hin. apply run_apply_deterministic.
  destruct (run_apply loop w input palette step) as [w' res] eqn:E.
  simpl. rewrite Hin. eapply run_apply_frame; eauto.
Qed.

(** Claim C5: Atkinson and Floyd-Steinberg are deterministic: what the
    caller observes of a call (error, or dimensions and output bytes)
    depends only on the input bytes, the palette and the step, not on the
    rest of the store (other buffers, fresh references, Math.random); in
    particular two successive calls with the same arguments give
    byte-identical outputs. *)
Theorem diffusion_apply_deterministic (input : ImageData) (palette : list color)
    (step : Z) :
  (forall w1 w2, heap w1 !! data input = heap w2 !! data input ->
     observe (Atkinson.apply w1 input palette step)
     = observe (Atkinson.apply w2 input palette step)
     /\ observe (FloydSteinberg.apply w1 input palette step)
        = observe (FloydSteinberg.apply w2 input palette step))
  /\ (forall w buf, heap w !! data input = Some buf ->
     observe (Atkinson.apply (fst (Atkinson.apply w input palette step)) input palette step)
     = observe (Atkinson.apply w input palette step)
     /\ observe (FloydSteinberg.apply (fst (FloydSteinberg.apply w input palette step))
                   input palette step)
        = observe (FloydSteinberg.apply w input palette step)).
Proof.
  unfold Atkinson.apply, FloydSteinberg.apply. split.
  - intros w1 w2 H. split; apply run_apply_deterministic; exact H.
  - intros w buf H. split; eapply run_apply_again; eauto.
Qed.

Lemma diffusion_apply_deterministic_witness :
  let w := mkWorld {[ 1%positive := [100; 100; 100; 0; 30; 30; 30; 7] ]}
             (fun _ => 0%Q) 0 in
  let input := mkImageData 2 1 1 in
  observe (Atkinson.apply (fst (Atkinson.apply w input PALETTE_BW 1)) input PALETTE_BW 1)
  = observe (Atkinson.apply w input PALETTE_BW 1).
Proof.
  intros w input.
  exact (proj1 (proj2 (diffusion_apply_deterministic input PALETTE_BW 1) w
                  [100; 100; 100; 0; 30; 30; 30; 7] eq_refl)).
Defined.

(** ** The byte buffer *)

Lemma length_write p i v : length (write p i v) = length p.
Proof. unfold write. destruct (i <? 0); [reflexivity|]. apply length_insert. Qed.

Lemma read_write_ne p i j v : i <> j -> read (write p i v) j = read p j.
Proof.
  intros Hij. unfold read, write.
  destruct (i <? 0) eqn:Ei; [reflexivity|].
  destruct (j <? 0) eqn:Ej; [reflexivity|].
  rewrite list_lookup_insert_ne; [reflexivity|lia].
Qed.

Lemma read_write_eq p i v :
  0 <= i < Z.of_nat (length p) -> read (write p i v) i = ToUint8Clamp v.
Proof.
  intros Hi. unfold read, write.
  replace (i <? 0) with false by lia.
  rewrite list_lookup_insert_eq; [reflexivity|lia].
Qed.

Lemma bytes_write p i v : bytes p -> bytes (write p i v).
Proof.
  unfold bytes, write. intros H. destruct (i <? 0); [exact H|].
  apply Forall_insert; [exact H|apply ToUint8Clamp_range].
Qed.

Lemma read_bytes p j : bytes p -> 0 <= read p j <= 255.
Proof.
  unfold read, bytes. intros H. destruct (j <? 0); [lia|].
  destruct (p !! Z.to_nat j) eqn:E; simpl; [|lia].
  rewrite Forall_lookup in H. eapply H. exact E.
Qed.

Lemma exec_seq {A B} (m : SM (list Z) A) (k : SM (list Z) B) p :
  total m -> total k -> exec (m ;;; k) p = exec k (exec m p).
Proof.
  intros H Hk. destruct (H p) as (a & p' & E).
  destruct (Hk p') as (b & p'' & E').
  unfold exec, bind. rewrite E, E'. reflexivity.
Qed.

Lemma exec_when b (m : SM (list Z) unit) p :
  exec (when b m) p = if b then exec m p else p.
Proof. destruct b; reflexivity. Qed.

Lemma pidx_inj width x y c x' y' c' :
  0 <= x < width -> 0 <= x' < width -> 0 <= c < 4 -> 0 <= c' < 4 ->
  pidx width x y c = pidx width x' y' c' -> x = x' /\ y = y' /\ c = c'.
Proof.
  unfold pidx. intros Hx Hx' Hc Hc' E.
  assert (EA : y * width + x = y' * width + x' /\ c = c') by lia.
  destruct EA as [EA ->].
  assert (Ey : y = y').
  { destruct (Z.lt_trichotomy y y') as [Hl|[He|Hl]]; [|exact He|]; exfalso; nia. }
  subst. split; [lia|auto].
Qed.

Lemma length_applyError p idx eR eG eB f :
  length (exec (applyError idx eR eG eB f) p) = length p.
Proof. unfold exec, applyError. simpl. rewrite !length_write. reflexivity. Qed.

(** [applyError] at pixel [(x', y')] changes the colour channels of that
    pixel only. *)
Lemma applyError_read p width height x' y' px py c eR eG eB f :
  Z.of_nat (length p) = width * height * 4 ->
  0 <= x' < width -> 0 <= y' < height ->
  0 <= px < width -> 0 <= py < height -> 0 <= c < 4 ->
  read (exec (applyError (pidx width x' y' 0) eR eG eB f) p) (pidx width px py c)
  = if (px =? x') && (py =? y') && (c <? 3)
    then ToUint8Clamp (clamp255 (inject_Z (read p (pidx width px py c))
                                 + inject_Z (channel c eR eG eB) * f)%Q)
    else read p (pidx width px py c).
Proof.
  intros Hlen Hx' Hy' Hpx Hpy Hc.
  assert (Hrange : 0 <= pidx width x' y' 0 /\ pidx width x' y' 0 + 3 < width * height * 4).
  { unfold pidx. split; [nia|]. nia. }
  unfold exec, applyError, bind, get_px, set_px. cbn.
  set (i := pidx width x' y' 0).
  destruct ((px =? x') && (py =? y')) eqn:Epos.
  - apply andb_true_iff in Epos. destruct Epos as [E1 E2].
    apply Z.eqb_eq in E1, E2. subst px py.
    assert (Hi : forall k, pidx width x' y' k = i + k) by (intros; unfold i, pidx; lia).
    rewrite !Hi.
    destruct (c =? 0) eqn:C0; [apply Z.eqb_eq in C0; subst c|].
    { rewrite Z.add_0_r. rewrite read_write_ne by lia. rewrite read_write_ne by lia.
      rewrite read_write_eq by lia. reflexivity. }
    destruct (c =? 1) eqn:C1; [apply Z.eqb_eq in C1; subst c|].
    { rewrite read_write_ne by lia. rewrite read_write_eq by (rewrite !length_write; lia).
      rewrite read_write_ne by lia. reflexivity. }
    destruct (c =? 2) eqn:C2; [apply Z.eqb_eq in C2; subst c|].
    { rewrite read_write_eq by (rewrite !length_write; lia).
      rewrite read_write_ne by lia. rewrite read_write_ne by lia. reflexivity. }
    replace c with 3 by lia. simpl.
    rewrite !read_write_ne by lia. reflexivity.
  - simpl.
    assert (Hne : forall k, 0 <= k < 3 -> i + k <> pidx width px py c).
    { intros k Hk E. unfold i in E.
      replace (pidx width x' y' 0 + k) with (pidx width x' y' k) in E
        by (unfold pidx; lia).
      apply pidx_inj in E; [|lia|lia|lia|lia].
      destruct E as (-> & -> & _). rewrite !Z.eqb_refl in Epos. discriminate. }
    rewrite !read_write_ne by (apply (Hne 2) || apply (Hne 1) || (replace i with (i + 0) by lia; apply (Hne 0)); lia).
    reflexivity.
Qed.

Lemma total_applyError' idx eR eG eB f : total (applyError idx eR eG eB f).
Proof. apply total_applyError. Qed.

Ltac bool_to_prop :=
  repeat match goal with
         | H : _ = true |- _ => first [apply andb_true_iff in H; destruct H
                                       | apply Z.eqb_eq in H | apply Z.ltb_lt in H
                                       | apply Z.leb_le in H
                                       | rewrite Z.geb_leb in H]
         | H : _ = false |- _ => first [apply andb_false_iff in H; destruct H
                                        | apply Z.eqb_neq in H | apply Z.ltb_ge in H
                                        | apply Z.leb_gt in H
                                        | rewrite Z.geb_leb in H]
         end.

Lemma length_layer (b : bool) q idx eR eG eB f :
  length (if b then exec (applyError idx eR eG eB f) q else q) = length q.
Proof. destruct b; [apply length_applyError|reflexivity]. Qed.

Lemma applyError_layer q (b : bool) width height x' y' px py c eR eG eB f :
  Z.of_nat (length q) = width * height * 4 ->
  (b = true -> 0 <= x' < width /\ 0 <= y' < height) ->
  0 <= px < width -> 0 <= py < height -> 0 <= c < 4 ->
  read (if b then exec (applyError (pidx width x' y' 0) eR eG eB f) q else q)
       (pidx width px py c)
  = if b && (px =? x') && (py =? y') && (c <? 3)
    then ToUint8Clamp (clamp255 (inject_Z (read q (pidx width px py c))
                                 + inject_Z (channel c eR eG eB) * f)%Q)
    else read q (pidx width px py c).
Proof.
  intros Hlen Hb Hpx Hpy Hc. destruct b; [|reflexivity].
  destruct (Hb eq_refl) as [Hx' Hy'].
  rewrite (applyError_read q width height) by assumption. reflexivity.
Qed.

Lemma fs_distribute_exec p x y width height eR eG eB step :
  exec (FloydSteinberg.distributeFloydSteinbergError x y width height eR eG eB step) p
  = let p1 := if x + step <? width
              then exec (applyError (pidx width (x + step) y 0) eR eG eB (7 # 16)) p else p in
    let p2 := if (y + step <? height) && (x - step >=? 0)
              then exec (applyError (pidx width (x - step) (y + step) 0) eR eG eB (3 # 16)) p1
              else p1 in
    let p3 := if y + step <? height
              then exec (applyError (pidx width x (y + step) 0) eR eG eB (5 # 16)) p2
              else p2 in
    if (y + step <? height) && (x + step <? width)
    then exec (applyError (pidx width (x + step) (y + step) 0) eR eG eB (1 # 16)) p3
    else p3.
Proof.
  unfold FloydSteinberg.distributeFloydSteinbergError.
  rewrite !exec_seq by (repeat first [apply total_applyError | apply total_when
                                    | apply total_bind; [|intros]]).
  rewrite !exec_when.
  unfold pidx. rewrite !Z.add_0_r. reflexivity.
Qed.

Lemma keeps_bytes_ret {A} (a : A) : keeps_bytes (ret a).
Proof. intros p a' p' H [= _ <-]. exact H. Qed.

Lemma keeps_bytes_bind {A B} (m : SM (list Z) A) (k : A -> SM (list Z) B) :
  keeps_bytes m -> (forall a, keeps_bytes (k a)) -> keeps_bytes (bind m k).
Proof.
  intros Hm Hk p b p' H. unfold bind.
  destruct (m p) as [e|[a p1]] eqn:E; [discriminate|].
  intros E'. eapply Hk; [|exact E']. eapply Hm; eauto.
Qed.

Lemma keeps_bytes_get_px i : keeps_bytes (get_px i).
Proof. intros p a p' H [= _ <-]. exact H. Qed.

Lemma keeps_bytes_set_px i v : keeps_bytes (set_px i v).
Proof. intros p a p' H [= _ <-]. apply bytes_write. exact H. Qed.

Lemma keeps_bytes_lift {A} (r : exn + A) : keeps_bytes (lift_exn r).
Proof. intros p a p' H. destruct r; [discriminate|]. intros [= _ <-]. exact H. Qed.

Lemma keeps_bytes_when b (m : SM (list Z) unit) :
  keeps_bytes m -> keeps_bytes (when b m).
Proof. intros H. destruct b; [exact H|apply keeps_bytes_ret]. Qed.

Lemma keeps_bytes_mfor (l : list Z) (body : Z -> SM (list Z) unit) :
  (forall v, keeps_bytes (body v)) -> keeps_bytes (mfor l body).
Proof.
  intros H. induction l as [|v rest IH]; simpl.
  - apply keeps_bytes_ret.
  - apply keeps_bytes_bind; [apply H|intros; exact IH].
Qed.

Ltac bytes_tac :=
  repeat first
    [ apply keeps_bytes_bind; [|intros]
    | apply keeps_bytes_when
    | apply keeps_bytes_ret
    | apply keeps_bytes_get_px
    | apply keeps_bytes_set_px
    | apply keeps_bytes_lift
    | apply keeps_bytes_mfor; intros
    | match goal with |- keeps_bytes (match ?c with _ => _ end) => destruct c end ].

Lemma FloydSteinberg_loop_bytes width height palette step :
  keeps_bytes (FloydSteinberg.loop width height palette step).
Proof.
  unfold FloydSteinberg.loop, scan_blocks, FloydSteinberg.processPixel,
    quantizeAnchor, FloydSteinberg.distributeFloydSteinbergError, applyError,
    FloydSteinberg.fillPixelBlock.
  bytes_tac.
Qed.

Lemma run_apply_bytes loop w input palette step buf w' r :
  keeps_bytes loop ->
  heap w !! data input = Some buf -> bytes buf ->
  run_apply loop w input palette step = (w', inr r) ->
  exists p', heap w' !! data r = Some p' /\ bytes p'.
Proof.
  intros Hk Hin Hb. unfold run_apply.
  destruct (length palette =? 0)%nat; [discriminate|].
  destruct (step <? 1); [discriminate|].
  pose proof (alloc_copy_buffer w (data input)) as Hbuf.
  destruct (alloc_copy w (data input)) as [q w1]. simpl in Hbuf.
  destruct (loop (buffer_of w1 q)) as [e|[[] pixels]] eqn:E; [discriminate|].
  intros [= <- <-]. exists pixels. simpl. rewrite lookup_insert_eq. split; [reflexivity|].
  eapply Hk; [|exact E]. rewrite Hbuf, Hin. exact Hb.
Qed.

(** Claim C8: the Floyd-Steinberg kernel.  At an anchor [(x, y)] the
    error [old - new] of each colour channel is added with weight 7/16,
    3/16, 5/16, 1/16 to exactly the in-bounds pixels [(x+step, y)],
    [(x-step, y+step)], [(x, y+step)], [(x+step, y+step)], clamped to
    [0, 255] and stored as a byte; every other sample (other pixels, all
    alpha channels) is untouched, out-of-bounds neighbours are skipped, the
    four interior weights sum to exactly 1, and no sample ever leaves
    [0, 255], neither in one diffusion step nor in the whole [apply]. *)
Theorem fs_kernel_diffusion (p : list Z) (x y width height step errorR errorG errorB : Z)
    (Hlen : Z.of_nat (length p) = width * height * 4)
    (Hx : 0 <= x < width) (Hy : 0 <= y < height) (Hstep : 1 <= step) :
  let p' := exec (FloydSteinberg.distributeFloydSteinbergError
                    x y width height errorR errorG errorB step) p in
  (forall px py c, 0 <= px < width -> 0 <= py < height -> 0 <= c < 4 ->
     read p' (pidx width px py c)
     = match fs_kernel x y step px py with
       | Some k =>
           if c <? 3
           then ToUint8Clamp (clamp255 (inject_Z (read p (pidx width px py c))
                                        + inject_Z (channel c errorR errorG errorB) * k)%Q)
           else read p (pidx width px py c)
       | None => read p (pidx width px py c)
       end)
  /\ length p' = length p
  /\ (bytes p -> bytes p')
  /\ (0 <= x - step -> x + step < width -> y + step < height ->
      exists a b c d,
        fs_kernel x y step (x + step) y = Some a
        /\ fs_kernel x y step (x - step) (y + step) = Some b
        /\ fs_kernel x y step x (y + step) = Some c
        /\ fs_kernel x y step (x + step) (y + step) = Some d
        /\ (a + b + c + d == 1)%Q)
  /\ (forall w input palette w' r buf,
      heap w !! data input = Some buf -> bytes buf ->
      FloydSteinberg.apply w input palette step = (w', inr r) ->
      exists out, heap w' !! data r = Some out /\ bytes out).
Proof.
  intros p'. split; [|split; [|split; [|split]]].
  - intros px py c Hpx Hpy Hc. unfold p'. rewrite fs_distribute_exec. cbv zeta.
    repeat (rewrite (applyError_layer _ _ width height);
            [| rewrite ?length_layer; exact Hlen
             | intros Hb; bool_to_prop; lia | lia | lia | lia]).
    unfold fs_kernel.
    destruct (Z.eqb_spec px (x + step)); destruct (Z.eqb_spec px (x - step));
      destruct (Z.eqb_spec px x); destruct (Z.eqb_spec py y);
      destruct (Z.eqb_spec py (y + step)); try lia; simpl;
      rewrite ?andb_true_r, ?andb_false_r; simpl;
      repeat match goal with
             | |- context [?a <? ?b] =>
                 first [ replace (a <? b) with true by lia
                       | replace (a <? b) with false by lia
                       | destruct (a <? b) ]
             | |- context [?a >=? ?b] =>
                 first [ replace (a >=? b) with true by lia
                       | replace (a >=? b) with false by lia
                       | destruct (a >=? b) ]
             end; simpl; reflexivity.
  - unfold p'. rewrite fs_distribute_exec. cbv zeta.
    repeat (destruct (_ : bool); rewrite ?length_applyError); reflexivity.
  - intros Hb. unfold p', exec.
    destruct (FloydSteinberg.distributeFloydSteinbergError x y width height
                errorR errorG errorB step p) as [e|[[] q]] eqn:E; [exact Hb|].
    assert (K : keeps_bytes (FloydSteinberg.distributeFloydSteinbergError
                               x y width height errorR errorG errorB step))
      by (unfold FloydSteinberg.distributeFloydSteinbergError, applyError; bytes_tac).
    eapply K; eauto.
  - intros H1 H2 H3. unfold fs_kernel.
    exists (7 # 16)%Q, (3 # 16)%Q, (5 # 16)%Q, (1 # 16)%Q.
    repeat split; try reflexivity;
      repeat match goal with
             | |- context [?a =? ?b] =>
                 first [ replace (a =? b) with true by lia
                       | replace (a =? b) with false by lia ]
             end; reflexivity.
  - intros w input palette w' r buf Hin Hb E.
    eapply run_apply_bytes; [apply FloydSteinberg_loop_bytes|exact Hin|exact Hb|exact E].
Qed.

Lemma fs_kernel_diffusion_witness :
  read (exec (FloydSteinberg.distributeFloydSteinbergError 0 0 2 2 100 100 100 1)
          [100; 100; 100; 255; 0; 0; 0; 255; 0; 0; 0; 255; 0; 0; 0; 255])
       (pidx 2 1 0 0)
  = ToUint8Clamp (clamp255 (inject_Z 0 + inject_Z 100 * (7 # 16))%Q).
Proof.
  exact (proj1 (fs_kernel_diffusion
                  [100; 100; 100; 255; 0; 0; 0; 255; 0; 0; 0; 255; 0; 0; 0; 255]
                  0 0 2 2 1 100 100 100 eq_refl ltac:(lia) ltac:(lia) ltac:(lia))
           1 0 0 ltac:(lia) ltac:(lia) ltac:(lia)).
Defined.

(** ** Atkinson writes only at block anchors *)

Lemma keeps_at_ret {A} j (a : A) : keeps_at j (ret a).
Proof. intros p a' p' [= _ <-]. reflexivity. Qed.

Lemma keeps_at_bind {A B} j (m : SM (list Z) A) (k : A -> SM (list Z) B) :
  keeps_at j m -> (forall a, keeps_at j (k a)) -> keeps_at j (bind m k).
Proof.
  intros Hm Hk p b p'. unfold bind.
  destruct (m p) as [e|[a p1]] eqn:E; [discriminate|].
  intros E'. rewrite (Hk a p1 b p' E'). eapply Hm. exact E.
Qed.

Lemma keeps_at_get_px j i : keeps_at j (get_px i).
Proof. intros p a p' [= _ <-]. reflexivity. Qed.

Lemma keeps_at_set_px j i v : i <> j -> keeps_at j (set_px i v).
Proof. intros H p a p' [= _ <-]. apply read_write_ne. exact H. Qed.

Lemma keeps_at_lift {A} j (r : exn + A) : keeps_at j (lift_exn r).
Proof. intros p a p'. destruct r; [discriminate|]. intros [= _ <-]. reflexivity. Qed.

Lemma keeps_at_when j b (m : SM (list Z) unit) :
  (b = true -> keeps_at j m) -> keeps_at j (when b m).
Proof. intros H. destruct b; [apply H; reflexivity|apply keeps_at_ret]. Qed.

Lemma keeps_at_mfor j (l : list Z) (body : Z -> SM (list Z) unit) :
  (forall v, In v l -> keeps_at j (body v)) -> keeps_at j (mfor l body).
Proof.
  intros H. induction l as [|v rest IH]; simpl.
  - apply keeps_at_ret.
  - apply keeps_at_bind; [apply H; left; reflexivity|].
    intros _. apply IH. intros v' Hv'. apply H. right. exact Hv'.
Qed.

Lemma keeps_at_applyError j idx eR eG eB f :
  (forall k, 0 <= k < 3 -> idx + k <> j) -> keeps_at j (applyError idx eR eG eB f).
Proof.
  intros H. unfold applyError.
  repeat (apply keeps_at_bind; [apply keeps_at_get_px|intros]).
  repeat (apply keeps_at_bind;
          [apply keeps_at_set_px; (replace idx with (idx + 0) by lia;
                                    apply H; lia) || (apply H; lia)|intros];
          try (apply keeps_at_bind; [apply keeps_at_get_px|intros])).
  apply keeps_at_set_px. apply H. lia.
Qed.

Lemma upto_step_in n v0 bound step v :
  In v (upto_step n v0 bound step) ->
  v < bound /\ exists k : nat, v = v0 + Z.of_nat k * step.
Proof.
  revert v0. induction n as [|n IH]; intros v0; simpl; [intros []|].
  destruct (v0 <? bound) eqn:E; [|intros []].
  intros [<-|Hin].
  - split; [lia|]. exists O. lia.
  - destruct (IH (v0 + step) Hin) as [Hb [k Hk]].
    split; [exact Hb|]. exists (S k). lia.
Qed.

Lemma js_for_anchor bound step v :
  1 <= step -> In v (js_for 0 bound step) -> 0 <= v < bound /\ (step | v).
Proof.
  intros Hs Hin. apply upto_step_in in Hin. destruct Hin as [Hb [k Hk]].
  split; [nia|]. exists (Z.of_nat k). lia.
Qed.

(** A sample of a pixel off the anchor grid is never the target of a write
    at an anchor-aligned pixel. *)
Lemma anchor_ne_off_grid width step x' y' px py c k :
  0 <= x' < width -> (step | x') -> (step | y') ->
  0 <= px < width -> 0 <= c < 4 -> 0 <= k < 4 ->
  (~ (step | px) \/ ~ (step | py)) ->
  pidx width x' y' 0 + k <> pidx width px py c.
Proof.
  intros Hx' Hdx Hdy Hpx Hc Hk Hna E.
  replace (pidx width x' y' 0 + k) with (pidx width x' y' k) in E
    by (unfold pidx; lia).
  apply pidx_inj in E; [|lia|lia|lia|lia]. destruct E as (<- & <- & _).
  destruct Hna; contradiction.
Qed.

Lemma keeps_at_quantizeAnchor j x y width palette :
  (forall k, 0 <= k < 4 -> (y * width + x) * 4 + k <> j) ->
  keeps_at j (quantizeAnchor x y width palette).
Proof.
  intros Hi. unfold quantizeAnchor.
  apply keeps_at_bind; [apply keeps_at_get_px|intros o0].
  apply keeps_at_bind; [apply keeps_at_get_px|intros o1].
  apply keeps_at_bind; [apply keeps_at_get_px|intros o2].
  apply keeps_at_bind; [apply keeps_at_lift|intros [[n0 n1] n2]].
  apply keeps_at_bind; [apply keeps_at_set_px; replace ((y * width + x) * 4)
                          with ((y * width + x) * 4 + 0) by lia; apply Hi; lia|intros].
  apply keeps_at_bind; [apply keeps_at_set_px, Hi; lia|intros].
  apply keeps_at_bind; [apply keeps_at_set_px, Hi; lia|intros].
  apply keeps_at_bind; [apply keeps_at_set_px, Hi; lia|intros].
  apply keeps_at_ret.
Qed.

Lemma Atkinson_loop_keeps width height palette step px py c :
  1 <= step -> 0 <= px < width -> 0 <= c < 4 ->
  (~ (step | px) \/ ~ (step | py)) ->
  keeps_at (pidx width px py c) (Atkinson.loop width height palette step).
Proof.
  intros Hs Hpx Hc Hna. unfold Atkinson.loop, scan_blocks.
  apply keeps_at_mfor. intros y Hy. apply js_for_anchor in Hy; [|exact Hs].
  apply keeps_at_mfor. intros x Hx. apply js_for_anchor in Hx; [|exact Hs].
  destruct Hy as [Hy Hdy]. destruct Hx as [Hx Hdx].
  assert (Hne : forall x' y' k, 0 <= x' < width -> (step | x') -> (step | y') ->
                 0 <= k < 4 -> pidx width x' y' 0 + k <> pidx width px py c)
    by (intros; apply (anchor_ne_off_grid width step); assumption).
  unfold Atkinson.processPixel.
  apply keeps_at_bind.
  { apply keeps_at_quantizeAnchor. intros k Hk.
    replace ((y * width + x) * 4 + k) with (pidx width x y 0 + k)
      by (unfold pidx; lia). apply Hne; assumption. }
  intros [[eR eG] eB].
  unfold Atkinson.distributeAtkinsonError.
  assert (Hs1 : (step | step)) by apply Z.divide_refl.
  assert (Hs2 : (step | step * 2)) by (apply Z.divide_mul_l, Z.divide_refl).
  assert (Hxs : (step | x + step)) by (apply Z.divide_add_r; assumption).
  assert (Hxs2 : (step | x + step * 2)) by (apply Z.divide_add_r; assumption).
  assert (Hxm : (step | x - step)) by (apply Z.divide_sub_r; assumption).
  assert (Hys : (step | y + step)) by (apply Z.divide_add_r; assumption).
  assert (Hys2 : (step | y + step * 2)) by (apply Z.divide_add_r; assumption).
  repeat (apply keeps_at_bind; [|intros]);
    apply keeps_at_when; intros Hb; bool_to_prop;
    apply keeps_at_applyError; intros k Hk;
    match goal with
    | |- ((?yy * width + ?xx) * 4 + k <> _) =>
        replace ((yy * width + xx) * 4 + k) with (pidx width xx yy 0 + k)
          by (unfold pidx; lia);
        apply Hne; [lia| assumption | assumption | lia]
    end.
Qed.

(** Claim C10: with [step > 1], Atkinson leaves every pixel off the
    anchor grid (x or y not a multiple of [step]) as it was in the input:
    each of its four samples in the returned buffer equals the input's. *)
Theorem atkinson_non_anchor_unchanged (w : World) (input : ImageData)
    (palette : list color) (step : Z) (buf : list Z) (w' : World) (r : ImageData)
    (px py c : Z)
    (Hin : heap w !! data input = Some buf) (Hstep : 1 < step)
    (Hpx : 0 <= px < width input) (Hpy : 0 <= py < height input) (Hc : 0 <= c < 4)
    (Hoff : ~ (step | px) \/ ~ (step | py))
    (Happ : Atkinson.apply w input palette step = (w', inr r)) :
  exists out, heap w' !! data r = Some out /\
    read out (pidx (width input) px py c) = read buf (pidx (width input) px py c).
Proof.
  revert Happ. unfold Atkinson.apply, run_apply.
  destruct (length palette =? 0)%nat; [discriminate|].
  destruct (step <? 1); [discriminate|].
  pose proof (alloc_copy_buffer w (data input)) as Hbuf.
  destruct (alloc_copy w (data input)) as [q w1]. simpl in Hbuf.
  destruct (Atkinson.loop (width input) (height input) palette step (buffer_of w1 q))
    as [e|[[] pixels]] eqn:E; [discriminate|].
  intros [= <- <-]. exists pixels. simpl. rewrite lookup_insert_eq. split; [reflexivity|].
  rewrite (Atkinson_loop_keeps (width input) (height input) palette step px py c
             ltac:(lia) Hpx Hc Hoff _ _ _ E).
  rewrite Hbuf, Hin. reflexivity.
Qed.

Lemma atkinson_non_anchor_unchanged_witness :
  exists out,
    heap (fst (Atkinson.apply grey_world grey_input PALETTE_BW 2))
      !! 2%positive = Some out
    /\ read out (pidx 2 1 0 0) = 100.
Proof.
  destruct (atkinson_non_anchor_unchanged grey_world grey_input PALETTE_BW 2
              [0; 0; 0; 0; 100; 100; 100; 0; 100; 100; 100; 0; 100; 100; 100; 0]
              (fst (Atkinson.apply grey_world grey_input PALETTE_BW 2))
              (mkImageData 2 2 2) 1 0 0
              eq_refl ltac:(lia) ltac:(simpl; lia) ltac:(simpl; lia) ltac:(lia)
              (or_introl (ltac:(intros [k Hk]; lia) : ~ (2 | 1)))
              ltac:(vm_compute; reflexivity)) as [out [H1 H2]].
  exists out. split; [exact H1|]. exact H2.
Defined.

(** ** Atkinson with [step > 1]: no block fill *)

(** Claim C1: with [step = 2], the pixel (1, 0) of the 2x2 grey image
    keeps its grey (100, 100, 100) in Atkinson's output, a colour outside
    the black-and-white palette it was dithered with. *)
Theorem atkinson_output_not_in_palette :
  match Atkinson.apply grey_world grey_input PALETTE_BW 2 with
  | (w', inr r) =>
      exists out, heap w' !! data r = Some out /\
        (read out (pidx 2 1 0 0), read out (pidx 2 1 0 1), read out (pidx 2 1 0 2))
          = (100, 100, 100) /\
        (100, 100, 100) ∉ PALETTE_BW
  | _ => False
  end.
Proof.
  vm_compute. eexists. split; [reflexivity|]. split; [reflexivity|].
  intros H. repeat (inversion H as [|? ? ? H']; clear H; rename H' into H).
Qed.

(** Claim C2: with [step = 2] the 2x2 image is one block anchored at
    (0, 0); in Atkinson's output the anchor is black (0, 0, 0), its
    quantized colour, while the pixel (1, 0) of the same block is
    (100, 100, 100). *)
Theorem atkinson_block_not_uniform :
  match Atkinson.apply grey_world grey_input PALETTE_BW 2 with
  | (w', inr r) =>
      exists out, heap w' !! data r = Some out /\
        (read out (pidx 2 0 0 0), read out (pidx 2 0 0 1), read out (pidx 2 0 0 2))
          = (0, 0, 0) /\
        (read out (pidx 2 1 0 0), read out (pidx 2 1 0 1), read out (pidx 2 1 0 2))
          = (100, 100, 100)
  | _ => False
  end.
Proof. vm_compute. eexists. split; [reflexivity|]. split; reflexivity. Qed.

(** Claim C3: with [step = 2], Atkinson's output keeps the input alpha 0
    at the pixel (1, 0); only the anchor's alpha is set to 255. *)
Theorem atkinson_alpha_not_255 :
  match Atkinson.apply grey_world grey_input PALETTE_BW 2 with
  | (w', inr r) =>
      exists out, heap w' !! data r = Some out /\
        read out (pidx 2 0 0 3) = 255 /\ read out (pidx 2 1 0 3) = 0
  | _ => False
  end.
Proof. vm_compute. eexists. split; [reflexivity|]. split; reflexivity. Qed.

(** ** Algorithm names: the whitelist against the registry *)



Section Hoare.
Context {S : Type}.

Lemma hoare_ret {A} (P Q : S -> Prop) (a : A) :
  (forall s, P s -> Q s) -> hoare P (ret a) Q.
Proof. intros H s a' s' Hs [= _ <-]. auto. Qed.

Lemma hoare_bind {A B} P R Q (m : SM S A) (k : A -> SM S B) :
  hoare P m R -> (forall a, hoare R (k a) Q) -> hoare P (bind m k) Q.
Proof.
  intros Hm Hk s b s' Hs. unfold bind.
  destruct (m s) as [e|[a s1]] eqn:E; [discriminate|].
  intros E'. eapply Hk; [|exact E']. eapply Hm; eauto.
Qed.

Lemma hoare_conseq {A} P P' Q Q' (m : SM S A) :
  hoare P' m Q' -> (forall s, P s -> P' s) -> (forall s, Q' s -> Q s) -> hoare P m Q.
Proof. intros H HP HQ s a s' Hs E. apply HQ. eapply H; eauto. Qed.

Lemma hoare_when P Q b (m : SM S unit) :
  (b = true -> hoare P m Q) -> (forall s, P s -> Q s) -> hoare P (when b m) Q.
Proof. intros H HPQ. destruct b; [apply H; reflexivity|apply hoare_ret; exact HPQ]. Qed.

Lemma hoare_lift {A} (P : S -> Prop) (r : exn + A) : hoare P (lift_exn r) P.
Proof. intros s a s' Hs. destruct r; [discriminate|]. intros [= _ <-]. exact Hs. Qed.

Lemma hoare_mfor_inv I (l : list Z) (body : Z -> SM S unit) :
  (forall v, In v l -> hoare I (body v) I) -> hoare I (mfor l body) I.
Proof.
  induction l as [|v rest IH]; intros H; simpl.
  - apply hoare_ret. auto.
  - apply hoare_bind with I; [apply H; left; reflexivity|].
    intros _. apply IH. intros v' Hv. apply H. right. exact Hv.
Qed.

Lemma hoare_mfor_app P R Q (l1 l2 : list Z) (body : Z -> SM S unit) :
  hoare P (mfor l1 body) R -> hoare R (mfor l2 body) Q ->
  hoare P (mfor (l1 ++ l2) body) Q.
Proof.
  revert P. induction l1 as [|v rest IH]; intros P H1 H2; simpl in *.
  - intros s a s' Hs E. eapply H2; [|exact E]. eapply H1; [exact Hs|reflexivity].
  - intros s a s' Hs. unfold bind.
    destruct (body v s) as [e|[[] s1]] eqn:E1; [discriminate|].
    intros E. refine (IH (fun s0 => exists s00, P s00 /\ body v s00 = inr (tt, s0))
                        _ H2 s1 a s' _ E); [|exists s; split; assumption].
    intros s2 b s3 (s00 & Hs00 & E00) E2. eapply H1; [exact Hs00|].
    unfold bind. rewrite E00. exact E2.
Qed.

Lemma frame_ret {A} pix j (a : A) : frame (S:=S) pix j (ret a).
Proof. intros s a' s' [= _ <-]. reflexivity. Qed.

Lemma frame_bind {A B} pix j (m : SM S A) (k : A -> SM S B) :
  frame pix j m -> (forall a, frame pix j (k a)) -> frame pix j (bind m k).
Proof.
  intros Hm Hk s b s'. unfold bind.
  destruct (m s) as [e|[a s1]] eqn:E; [discriminate|].
  intros E'. rewrite (Hk a s1 b s' E'). eapply Hm. exact E.
Qed.

Lemma ww_ret {A} pix width R (a : A) : writes_within (S:=S) pix width R (ret a).
Proof. intros qx qy c _ _ _. apply frame_ret. Qed.

Lemma ww_bind {A B} pix width R (m : SM S A) (k : A -> SM S B) :
  writes_within pix width R m -> (forall a, writes_within pix width R (k a)) ->
  writes_within pix width R (bind m k).
Proof.
  intros Hm Hk qx qy c Hx Hc HR. apply frame_bind; [apply Hm; auto|].
  intros a. apply Hk; auto.
Qed.

Lemma ww_when pix width R b (m : SM S unit) :
  (b = true -> writes_within pix width R m) -> writes_within pix width R (when b m).
Proof. intros H. destruct b; [apply H; reflexivity|apply ww_ret]. Qed.

Lemma ww_lift {A} pix width R (r : exn + A) : writes_within (S:=S) pix width R (lift_exn r).
Proof.
  intros qx qy c _ _ _ s a s'. destruct r; [discriminate|]. intros [= _ <-]. reflexivity.
Qed.

Lemma ww_mfor pix width R (l : list Z) (body : Z -> SM S unit) :
  (forall v, In v l -> writes_within pix width R (body v)) ->
  writes_within pix width R (mfor l body).
Proof.
  induction l as [|v rest IH]; intros H; simpl.
  - apply ww_ret.
  - apply ww_bind; [apply H; left; reflexivity|].
    intros _. apply IH. intros v' Hv. apply H. right. exact Hv.
Qed.

Lemma ww_weaken {A} pix width (R R' : Z -> Z -> Prop) (m : SM S A) :
  writes_within pix width R m -> (forall a b, R a b -> R' a b) ->
  writes_within pix width R' m.
Proof. intros H HR qx qy c Hx Hc HR'. apply H; auto. Qed.

(** A fragment that writes only outside the pixels [(qx, qy)] satisfying
    [Q] preserves any property of those pixels' samples. *)
Lemma ww_frame_pixel {A} pix width R (m : SM S A) qx qy s a s' :
  writes_within pix width R m -> 0 <= qx < width -> ~ R qx qy ->
  m s = inr (a, s') ->
  px_rgb (pix s') width qx qy = px_rgb (pix s) width qx qy /\
  read (pix s') (pidx width qx qy 3) = read (pix s) (pidx width qx qy 3).
Proof.
  intros H Hx HR E. unfold px_rgb.
  rewrite (H qx qy 0 Hx ltac:(lia) HR s a s' E), (H qx qy 1 Hx ltac:(lia) HR s a s' E),
    (H qx qy 2 Hx ltac:(lia) HR s a s' E), (H qx qy 3 Hx ltac:(lia) HR s a s' E).
  split; reflexivity.
Qed.

End Hoare.

Lemma ww_get_px width R i : writes_within id width R (get_px i).
Proof. intros qx qy c _ _ _ s a s' [= _ <-]. reflexivity. Qed.

Lemma ww_set_px width (R : Z -> Z -> Prop) i v a b k :
  0 <= a < width -> 0 <= k < 4 -> R a b -> i = pidx width a b k ->
  writes_within id width R (set_px i v).
Proof.
  intros Ha Hk HR -> qx qy c Hx Hc HnR s u s' [= _ <-]. simpl.
  apply read_write_ne. intros E. apply pidx_inj in E; [|lia|lia|lia|lia].
  destruct E as (-> & -> & _). contradiction.
Qed.

Lemma ww_applyError width (R : Z -> Z -> Prop) idx a b eR eG eB f :
  0 <= a < width -> R a b -> idx = pidx width a b 0 ->
  writes_within id width R (applyError idx eR eG eB f).
Proof.
  intros Ha HR ->. unfold applyError.
  apply ww_bind; [apply ww_get_px|intros v0].
  apply ww_bind; [apply (ww_set_px _ _ _ _ a b 0); [lia|lia|exact HR|reflexivity]|intros _].
  apply ww_bind; [apply ww_get_px|intros v1].
  apply ww_bind; [apply (ww_set_px _ _ _ _ a b 1); [lia|lia|exact HR|unfold pidx; lia]|intros _].
  apply ww_bind; [apply ww_get_px|intros v2].
  apply (ww_set_px _ _ _ _ a b 2); [lia|lia|exact HR|unfold pidx; lia].
Qed.

Lemma upto_step_split n v0 bound step v :
  1 <= step -> In v (upto_step n v0 bound step) ->
  exists l1 l2, upto_step n v0 bound step = l1 ++ v :: l2 /\
    forall u, In u l2 -> v + step <= u.
Proof.
  intros Hs. revert v0. induction n as [|n IH]; intros v0; simpl; [intros []|].
  destruct (v0 <? bound) eqn:E; [|intros []].
  intros [<-|Hin].
  - exists [], (upto_step n (v0 + step) bound step). split; [reflexivity|].
    intros u Hu. apply upto_step_in in Hu. destruct Hu as [_ [k ->]]. nia.
  - destruct (IH (v0 + step) Hin) as (l1 & l2 & E1 & H2).
    exists (v0 :: l1), l2. rewrite E1. split; [reflexivity|exact H2].
Qed.

Lemma upto_step_mem n v0 bound step (k : nat) :
  1 <= step -> (k < n)%nat -> v0 + Z.of_nat k * step < bound ->
  In (v0 + Z.of_nat k * step) (upto_step n v0 bound step).
Proof.
  intros Hs. revert n v0. induction k as [|k IH]; intros n v0 Hk Hb;
    (destruct n as [|n]; [lia|]); simpl.
  - replace (v0 <? bound) with true by lia. left. lia.
  - replace (v0 <? bound) with true by nia. right.
    replace (v0 + Z.of_nat (S k) * step) with (v0 + step + Z.of_nat k * step) by lia.
    apply IH; lia.
Qed.

(** The anchor [step * (v / step)] of the block holding [v] is visited by
    [for (let v = 0; v < bound; v += step)]. *)
Lemma js_for_block_anchor bound step v :
  1 <= step -> 0 <= v < bound -> In (step * (v / step)) (js_for 0 bound step).
Proof.
  intros Hs Hv. unfold js_for.
  pose proof (Z.div_pos v step ltac:(lia) ltac:(lia)) as H0.
  pose proof (Z.mul_div_le v step ltac:(lia)) as H1.
  pose proof (Z.div_le_upper_bound v step v ltac:(lia) ltac:(nia)) as H2.
  replace (step * (v / step)) with (0 + Z.of_nat (Z.to_nat (v / step)) * step) by lia.
  apply upto_step_mem; lia.
Qed.

Lemma js_for_mem1 start bound v :
  start <= v < bound -> In v (js_for start bound 1).
Proof.
  intros Hv. unfold js_for.
  replace v with (start + Z.of_nat (Z.to_nat (v - start)) * 1) by lia.
  apply upto_step_mem; lia.
Qed.

Lemma js_for_in start bound step v :
  1 <= step -> In v (js_for start bound step) ->
  start <= v < bound /\ exists k : nat, v = start + Z.of_nat k * step.
Proof.
  intros Hs Hin. apply upto_step_in in Hin. destruct Hin as [Hb [k Hk]].
  split; [nia|]. exists k. exact Hk.
Qed.

Lemma block_anchor_bounds step v :
  1 <= step -> 0 <= v ->
  0 <= step * (v / step) /\ step * (v / step) <= v /\ v < step * (v / step) + step.
Proof.
  intros Hs Hv.
  pose proof (Z.div_pos v step ltac:(lia) ltac:(lia)).
  pose proof (Z.mul_div_le v step ltac:(lia)).
  pose proof (Z.mod_pos_bound v step ltac:(lia)).
  pose proof (Z.div_mod v step ltac:(lia)). nia.
Qed.

(** The block scan: the body run at the anchor [(x0, y0)] establishes [Q],
    which every later body keeps. *)
Lemma scan_establish {S} width height step (body : Z -> Z -> SM S unit)
    (Inv Q : S -> Prop) x0 y0 :
  1 <= step -> In x0 (js_for 0 width step) -> In y0 (js_for 0 height step) ->
  (forall x y, In x (js_for 0 width step) -> In y (js_for 0 height step) ->
     hoare Inv (body x y) Inv) ->
  hoare Inv (body x0 y0) Q ->
  (forall x y, In x (js_for 0 width step) -> In y (js_for 0 height step) ->
     y0 + step <= y \/ (y = y0 /\ x0 + step <= x) -> hoare Q (body x y) Q) ->
  hoare Inv (scan_blocks width height step body) Q.
Proof.
  intros Hs Hx0 Hy0 Hinv Hest Hlater. unfold scan_blocks.
  destruct (upto_step_split _ _ _ _ _ Hs Hx0) as (xs1 & xs2 & Exs & Hxs2).
  destruct (upto_step_split _ _ _ _ _ Hs Hy0) as (ys1 & ys2 & Eys & Hys2).
  fold (js_for 0 width step) in Exs. fold (js_for 0 height step) in Eys.
  assert (Inx : forall u, In u xs1 \/ In u xs2 \/ u = x0 -> In u (js_for 0 width step))
    by (intros u Hu; rewrite Exs; apply in_or_app; simpl;
        destruct Hu as [H|[H|H]]; [left|right; right|right; left]; auto).
  assert (Iny : forall u, In u ys1 \/ In u ys2 \/ u = y0 -> In u (js_for 0 height step))
    by (intros u Hu; rewrite Eys; apply in_or_app; simpl;
        destruct Hu as [H|[H|H]]; [left|right; right|right; left]; auto).
  rewrite Eys. apply hoare_mfor_app with Inv.
  { apply hoare_mfor_inv. intros y Hy. apply hoare_mfor_inv. intros x Hx.
    apply Hinv; [exact Hx|apply Iny; tauto]. }
  simpl. apply hoare_bind with Q.
  - rewrite Exs. apply hoare_mfor_app with Inv.
    + apply hoare_mfor_inv. intros x Hx. apply Hinv; [apply Inx; tauto|apply Iny; tauto].
    + simpl. apply hoare_bind with Q; [exact Hest|intros _].
      apply hoare_mfor_inv. intros x Hx. apply Hlater;
        [apply Inx; tauto|apply Iny; tauto|right; split; [reflexivity|apply Hxs2, Hx]].
  - intros _. apply hoare_mfor_inv. intros y Hy. apply hoare_mfor_inv. intros x Hx.
    apply Hlater; [exact Hx|apply Iny; tauto|left; apply Hys2, Hy].
Qed.


Lemma hoare_bind_inv {S A B} (I : S -> Prop) (m : SM S A) (k : A -> SM S B) :
  hoare I m I -> (forall a, hoare I (k a) I) -> hoare I (bind m k) I.
Proof. intros; eapply hoare_bind; eauto. Qed.

Lemma hoare_when_inv {S} (I : S -> Prop) b (m : SM S unit) :
  hoare I m I -> hoare I (when b m) I.
Proof. intros H. apply hoare_when; auto. Qed.

Lemma hoare_ret_inv {S A} (I : S -> Prop) (a : A) : hoare I (ret a) I.
Proof. apply hoare_ret. auto. Qed.

Lemma hoare_get_inv (I : list Z -> Prop) i : hoare I (get_px i) I.
Proof. intros p a p' H [= _ <-]. exact H. Qed.

Lemma hoare_len_set n i v : hoare (len_is n) (set_px i v) (len_is n).
Proof. intros p a p' H [= _ <-]. unfold len_is. rewrite length_write. exact H. Qed.

Ltac len_tac :=
  repeat first
    [ apply hoare_bind_inv; [|intros ?]
    | apply hoare_when_inv
    | apply hoare_ret_inv
    | apply hoare_get_inv
    | apply hoare_len_set
    | apply hoare_lift
    | apply hoare_mfor_inv; intros ? ?
    | match goal with |- hoare _ (match ?c with _ => _ end) _ => destruct c end ].

Lemma ToUint8Clamp_inject (n : Z) : 0 <= n <= 255 -> ToUint8Clamp (inject_Z n) = n.
Proof.
  intros Hn. unfold ToUint8Clamp.
  destruct (Qle_bool (inject_Z n) 0) eqn:E0.
  { apply Qle_bool_iff in E0. change 0%Q with (inject_Z 0) in E0.
    rewrite <- Zle_Qle in E0. lia. }
  destruct (Qle_bool (inject_Z 255) (inject_Z n)) eqn:E1.
  { apply Qle_bool_iff in E1. rewrite <- Zle_Qle in E1. lia. }
  rewrite Qfloor_Z.
  assert (Hd : (inject_Z n - inject_Z n == 0)%Q) by ring.
  destruct (Qlt_bool (1 # 2) (inject_Z n - inject_Z n)) eqn:E2.
  { apply Qlt_bool_iff in E2. rewrite Hd in E2. exfalso.
    apply (Qlt_not_le _ _ E2). apply Qlt_le_weak. reflexivity. }
  destruct (Qlt_bool (inject_Z n - inject_Z n) (1 # 2)) eqn:E3; [reflexivity|].
  apply Qlt_bool_false in E3. rewrite Hd in E3. exfalso.
  apply (Qle_not_lt _ _ E3). reflexivity.
Qed.

Lemma findClosestColor_in pixel palette c :
  findClosestColor pixel palette = inr c -> c ∈ palette.
Proof.
  intros E. destruct palette as [|c0 rest]; [discriminate|].
  destruct (findClosestColor_spec pixel (c0 :: rest) ltac:(discriminate))
    as (k & c' & E' & Hk & _). rewrite E in E'. injection E' as <-.
  eapply list_elem_of_lookup_2. exact Hk.
Qed.

Lemma palette_bytes_in palette r g b :
  palette_bytes palette -> (r, g, b) ∈ palette ->
  0 <= r <= 255 /\ 0 <= g <= 255 /\ 0 <= b <= 255.
Proof.
  intros H Hin. unfold palette_bytes in H. rewrite Forall_forall in H.
  exact (H _ Hin).
Qed.

Lemma pidx_in_range width height x y c n :
  Z.of_nat n = width * height * 4 -> 0 <= x < width -> 0 <= y < height -> 0 <= c < 4 ->
  0 <= pidx width x y c < Z.of_nat n.
Proof. intros Hn Hx Hy Hc. unfold pidx. rewrite Hn. nia. Qed.

Lemma hoare_block_ok {S A} (pix : S -> list Z) (I : S -> Prop) width
    (R : Z -> Z -> Prop) (m : SM S A) palette x0 y0 px py :
  hoare I m I -> writes_within pix width R m ->
  0 <= x0 < width -> 0 <= px < width -> ~ R x0 y0 -> ~ R px py ->
  hoare (fun s => I s /\ block_ok palette width x0 y0 px py (pix s)) m
        (fun s => I s /\ block_ok palette width x0 y0 px py (pix s)).
Proof.
  intros HI Hw Hx0 Hpx HR0 HR s a s' [Hs Hb] E. split; [eapply HI; eauto|].
  destruct (ww_frame_pixel pix width R m x0 y0 s a s' Hw Hx0 HR0 E) as [E1 _].
  destruct (ww_frame_pixel pix width R m px py s a s' Hw Hpx HR E) as [E2 E3].
  unfold block_ok in *. rewrite E1, E2, E3. exact Hb.
Qed.

(** Quantizing the anchor leaves a palette colour with alpha 255 there. *)
Lemma quantize_establish width height palette x y n :
  palette_bytes palette -> 0 <= x < width -> 0 <= y < height ->
  Z.of_nat n = width * height * 4 ->
  hoare (len_is n) (quantizeAnchor x y width palette)
    (fun p => len_is n p /\ block_ok palette width x y x y p).
Proof.
  intros Hpal Hx Hy Hn p a p' Hl E.
  unfold quantizeAnchor, bind, get_px, lift_exn, set_px, ret in E.
  destruct (findClosestColor _ palette) as [e|[[n0 n1] n2]] eqn:F; [discriminate|].
  injection E as _ <-. apply findClosestColor_in in F.
  destruct (palette_bytes_in _ _ _ _ Hpal F) as (B0 & B1 & B2).
  unfold len_is in *. rewrite !length_write. split; [exact Hl|].
  pose proof (pidx_in_range width height x y 0 n Hn Hx Hy ltac:(lia)) as R0.
  pose proof (pidx_in_range width height x y 1 n Hn Hx Hy ltac:(lia)) as R1.
  pose proof (pidx_in_range width height x y 2 n Hn Hx Hy ltac:(lia)) as R2.
  pose proof (pidx_in_range width height x y 3 n Hn Hx Hy ltac:(lia)) as R3.
  unfold pidx in *. rewrite <- Hl in R0, R1, R2, R3.
  unfold block_ok, px_rgb, pidx.
  replace ((y * width + x) * 4 + 0) with ((y * width + x) * 4) by lia.
  repeat first [rewrite read_write_ne by lia
               | rewrite read_write_eq by (rewrite ?length_write; lia)].
  rewrite !ToUint8Clamp_inject by lia. split; [exact F|split; reflexivity].
Qed.

Lemma pidx_ne width a b k a' b' k' :
  0 <= a < width -> 0 <= a' < width -> 0 <= k < 4 -> 0 <= k' < 4 ->
  ~ (a = a' /\ b = b') -> pidx width a b k <> pidx width a' b' k'.
Proof.
  intros Ha Ha' Hk Hk' Hne E. apply pidx_inj in E; [|lia|lia|lia|lia]. tauto.
Qed.

Ltac idx_ne := solve [unfold pidx; lia | apply pidx_ne; lia].

Lemma block_write_ww x y width c0 c1 c2 by' bx :
  0 <= bx < width ->
  writes_within id width (fun a b => a = bx /\ b = by' /\ ~ (a = x /\ b = y))
    (block_write x y width c0 c1 c2 by' bx).
Proof.
  intros Hbx. unfold block_write. apply ww_when. intros G.
  assert (Hne : ~ (bx = x /\ by' = y)).
  { apply orb_true_iff in G.
    destruct G as [G|G]; apply negb_true_iff, Z.eqb_neq in G; lia. }
  cbv zeta.
  apply ww_bind; [apply (ww_set_px _ _ _ _ bx by' 0); [lia|lia|tauto|unfold pidx; lia]|intros _].
  apply ww_bind; [apply (ww_set_px _ _ _ _ bx by' 1); [lia|lia|tauto|unfold pidx; lia]|intros _].
  apply ww_bind; [apply (ww_set_px _ _ _ _ bx by' 2); [lia|lia|tauto|unfold pidx; lia]|intros _].
  apply (ww_set_px _ _ _ _ bx by' 3); [lia|lia|tauto|unfold pidx; lia].
Qed.

Lemma block_fill_ww x y width height step c0 c1 c2 :
  0 <= x ->
  writes_within id width
    (fun a b => x <= a < x + step /\ y <= b < y + step /\ ~ (a = x /\ b = y))
    (mfor (js_for y (Z.min (y + step) height) 1) (fun by' =>
       mfor (js_for x (Z.min (x + step) width) 1) (fun bx =>
         block_write x y width c0 c1 c2 by' bx))).
Proof.
  intros Hx. apply ww_mfor. intros by' Hby. apply js_for_in in Hby; [|lia].
  apply ww_mfor. intros bx Hbx. apply js_for_in in Hbx; [|lia].
  eapply ww_weaken; [apply block_write_ww; lia|]. cbv beta. intros a b (-> & -> & H). lia.
Qed.

Lemma FS_fill_unfold x y width height step :
  FloydSteinberg.fillPixelBlock x y width height step =
  (c0 <- get_px ((y * width + x) * 4) ;;
   c1 <- get_px ((y * width + x) * 4 + 1) ;;
   c2 <- get_px ((y * width + x) * 4 + 2) ;;
   mfor (js_for y (Z.min (y + step) height) 1) (fun by' =>
     mfor (js_for x (Z.min (x + step) width) 1) (fun bx =>
       block_write x y width c0 c1 c2 by' bx))).
Proof. reflexivity. Qed.

Lemma Ordered_fill_unfold x y width height step c0 c1 c2 :
  Ordered.fillPixelBlock x y width height step (c0, c1, c2) =
  mfor (js_for y (Z.min (y + step) height) 1) (fun by' =>
    mfor (js_for x (Z.min (x + step) width) 1) (fun bx =>
      block_write x y width c0 c1 c2 by' bx)).
Proof. reflexivity. Qed.

Lemma block_write_len n x y width c0 c1 c2 by' bx :
  hoare (len_is n) (block_write x y width c0 c1 c2 by' bx) (len_is n).
Proof. unfold block_write. cbv zeta. len_tac. Qed.

(** The write at [(px, py)] itself copies the block colour there. *)
Lemma block_write_here palette n width height x0 y0 px py c0 c1 c2 :
  Z.of_nat n = width * height * 4 -> 0 <= x0 < width -> 0 <= px < width ->
  0 <= py < height -> ~ (px = x0 /\ py = y0) -> (c0, c1, c2) ∈ palette ->
  palette_bytes palette ->
  hoare (fun p => len_is n p /\ px_rgb p width x0 y0 = (c0, c1, c2))
    (block_write x0 y0 width c0 c1 c2 py px)
    (fun p => (len_is n p /\ px_rgb p width x0 y0 = (c0, c1, c2)) /\
              px_rgb p width px py = (c0, c1, c2) /\ read p (pidx width px py 3) = 255).
Proof.
  intros Hn Hx0 Hpx Hpy Hne Hin Hpal.
  destruct (palette_bytes_in _ _ _ _ Hpal Hin) as (B0 & B1 & B2).
  unfold block_write.
  replace (negb (py =? y0) || negb (px =? x0)) with true
    by (destruct (Z.eqb_spec py y0), (Z.eqb_spec px x0); simpl; tauto).
  intros p a p' [Hl Ha] E. cbv zeta in E. unfold when, bind, set_px, ret in E.
  injection E as _ <-. unfold len_is in *.
  rewrite !length_write. split; [split; [exact Hl|]|].
  - rewrite <- Ha. unfold px_rgb.
    replace ((py * width + px) * 4) with (pidx width px py 0) by (unfold pidx; lia).
    replace ((pidx width px py 0) + 1) with (pidx width px py 1) by (unfold pidx; lia).
    replace ((pidx width px py 0) + 2) with (pidx width px py 2) by (unfold pidx; lia).
    replace ((pidx width px py 0) + 3) with (pidx width px py 3) by (unfold pidx; lia).
    rewrite !(read_write_ne _ (pidx width px py _)) by idx_ne. reflexivity.
  - pose proof (pidx_in_range width height px py 0 n Hn Hpx Hpy ltac:(lia)) as R0.
    pose proof (pidx_in_range width height px py 3 n Hn Hpx Hpy ltac:(lia)) as R3.
    rewrite <- Hl in R0, R3. unfold px_rgb, pidx in *.
    replace ((py * width + px) * 4 + 0) with ((py * width + px) * 4) in * by lia.
    repeat first [rewrite read_write_ne by lia
                 | rewrite read_write_eq by (rewrite ?length_write; lia)].
    rewrite !ToUint8Clamp_inject by lia. split; reflexivity.
Qed.

Lemma block_write_frame width x0 y0 c0 c1 c2 by' bx qx qy p a p' :
  0 <= bx < width -> 0 <= qx < width ->
  ~ (qx = bx /\ qy = by') \/ (qx = x0 /\ qy = y0) ->
  block_write x0 y0 width c0 c1 c2 by' bx p = inr (a, p') ->
  px_rgb p' width qx qy = px_rgb p width qx qy /\
  read p' (pidx width qx qy 3) = read p (pidx width qx qy 3).
Proof.
  intros Hbx Hqx Hq E.
  apply (ww_frame_pixel id width _ _ qx qy p a p' (block_write_ww x0 y0 width c0 c1 c2 by' bx Hbx)
           Hqx); [|exact E].
  cbv beta. tauto.
Qed.

(** Filling the block of anchor [(x0, y0)] with the anchor's palette colour
    leaves every pixel [(px, py)] of the block with that colour and alpha 255. *)
Lemma block_fill_establish palette n width height x0 y0 step px py c0 c1 c2 :
  Z.of_nat n = width * height * 4 -> 0 <= x0 -> 0 <= y0 ->
  x0 <= px < Z.min (x0 + step) width -> y0 <= py < Z.min (y0 + step) height ->
  ~ (px = x0 /\ py = y0) -> (c0, c1, c2) ∈ palette -> palette_bytes palette ->
  hoare (fun p => len_is n p /\ px_rgb p width x0 y0 = (c0, c1, c2))
    (mfor (js_for y0 (Z.min (y0 + step) height) 1) (fun by' =>
       mfor (js_for x0 (Z.min (x0 + step) width) 1) (fun bx =>
         block_write x0 y0 width c0 c1 c2 by' bx)))
    (fun p => len_is n p /\ block_ok palette width x0 y0 px py p).
Proof.
  intros Hn Hx0 Hy0 Hpx Hpy Hne Hin Hpal.
  set (I0 := fun p => len_is n p /\ px_rgb p width x0 y0 = (c0, c1, c2)).
  set (I1 := fun p => I0 p /\ px_rgb p width px py = (c0, c1, c2) /\
                      read p (pidx width px py 3) = 255).
  assert (Hx0w : 0 <= x0 < width) by lia.
  assert (K0 : forall by' bx, x0 <= bx < Z.min (x0 + step) width ->
            hoare I0 (block_write x0 y0 width c0 c1 c2 by' bx) I0).
  { intros by' bx Hbx p a p' [Hl Ha] E. split.
    - eapply block_write_len; eauto.
    - destruct (block_write_frame width x0 y0 c0 c1 c2 by' bx x0 y0 p a p'
                  ltac:(lia) Hx0w ltac:(tauto) E) as [E1 _]. rewrite E1. exact Ha. }
  assert (K1 : forall by' bx, x0 <= bx < Z.min (x0 + step) width ->
            ~ (px = bx /\ py = by') ->
            hoare I1 (block_write x0 y0 width c0 c1 c2 by' bx) I1).
  { intros by' bx Hbx Hq p a p' [H0 [Hr Ha]] E. split; [eapply K0; eauto|].
    destruct (block_write_frame width x0 y0 c0 c1 c2 by' bx px py p a p'
                ltac:(lia) ltac:(lia) ltac:(tauto) E) as [E1 E2].
    rewrite E1, E2. split; assumption. }
  assert (Hrow : In py (js_for y0 (Z.min (y0 + step) height) 1)) by (apply js_for_mem1; lia).
  assert (Hcol : In px (js_for x0 (Z.min (x0 + step) width) 1)) by (apply js_for_mem1; lia).
  destruct (upto_step_split _ _ _ 1 _ ltac:(lia) Hrow) as (r1 & r2 & Er & Hr2).
  destruct (upto_step_split _ _ _ 1 _ ltac:(lia) Hcol) as (k1 & k2 & Ek & Hk2).
  fold (js_for y0 (Z.min (y0 + step) height) 1) in Er.
  fold (js_for x0 (Z.min (x0 + step) width) 1) in Ek.
  assert (Inc : forall u, In u k1 \/ In u k2 -> x0 <= u < Z.min (x0 + step) width).
  { intros u Hu. assert (Hu' : In u (js_for x0 (Z.min (x0 + step) width) 1))
      by (rewrite Ek; apply in_or_app; simpl; tauto).
    apply js_for_in in Hu'; lia. }
  apply hoare_conseq with I0 (fun p => I1 p).
  2: { intros p H. exact H. }
  2: { intros p [[Hl Ha] [Hr Hal]]. split; [exact Hl|].
       unfold block_ok. rewrite Ha, Hr. split; [exact Hin|split; [reflexivity|exact Hal]]. }
  rewrite Er. apply hoare_mfor_app with I0.
  { apply hoare_mfor_inv. intros by' _. rewrite Ek. apply hoare_mfor_inv.
    intros bx Hbx. apply K0. rewrite <- Ek in Hbx. apply js_for_in in Hbx; lia. }
  simpl. apply hoare_bind with I1.
  - rewrite Ek. apply hoare_mfor_app with I0.
    + apply hoare_mfor_inv. intros bx Hbx. apply K0, Inc. tauto.
    + simpl. apply hoare_bind with I1.
      * apply (block_write_here palette n width height x0 y0 px py c0 c1 c2);
          try assumption; lia.
      * intros _. apply hoare_mfor_inv. intros bx Hbx.
        apply K1; [apply Inc; tauto|]. specialize (Hk2 _ Hbx). lia.
  - intros _. apply hoare_mfor_inv. intros by' Hby. rewrite Ek. apply hoare_mfor_inv.
    intros bx Hbx. apply K1.
    + rewrite <- Ek in Hbx. apply js_for_in in Hbx; lia.
    + specialize (Hr2 _ Hby). lia.
Qed.

Lemma quantize_ww x y width palette :
  0 <= x < width ->
  writes_within id width (fun a b => a = x /\ b = y) (quantizeAnchor x y width palette).
Proof.
  intros Hx. unfold quantizeAnchor. cbv zeta.
  apply ww_bind; [apply ww_get_px|intros o0].
  apply ww_bind; [apply ww_get_px|intros o1].
  apply ww_bind; [apply ww_get_px|intros o2].
  apply ww_bind; [apply ww_lift|intros [[n0 n1] n2]].
  apply ww_bind; [apply (ww_set_px _ _ _ _ x y 0); [lia|lia|tauto|unfold pidx; lia]|intros _].
  apply ww_bind; [apply (ww_set_px _ _ _ _ x y 1); [lia|lia|tauto|unfold pidx; lia]|intros _].
  apply ww_bind; [apply (ww_set_px _ _ _ _ x y 2); [lia|lia|tauto|unfold pidx; lia]|intros _].
  apply ww_bind; [apply (ww_set_px _ _ _ _ x y 3); [lia|lia|tauto|unfold pidx; lia]|intros _].
  apply ww_ret.
Qed.

Ltac ww_kernel :=
  repeat (apply ww_bind; [|intros _]);
  apply ww_when; intros Hb; bool_to_prop;
  match goal with
  | |- writes_within _ _ _ (applyError ((?b * ?w + ?a) * 4) _ _ _ _) =>
      apply (ww_applyError w _ _ a b); [lia|cbv beta; lia|unfold pidx; lia]
  end.

Lemma fs_distribute_ww x y width height eR eG eB step :
  0 <= x < width -> 1 <= step ->
  writes_within id width (fun a b => (x + step <= a /\ b = y) \/ y + step <= b)
    (FloydSteinberg.distributeFloydSteinbergError x y width height eR eG eB step).
Proof.
  intros Hx Hs. unfold FloydSteinberg.distributeFloydSteinbergError.
  repeat (apply ww_bind; [ww_kernel|intros _]). ww_kernel.
Qed.

Lemma atkinson_distribute_ww x y width height eR eG eB step :
  0 <= x < width -> 1 <= step ->
  writes_within id width (fun a b => (x + step <= a /\ b = y) \/ y + step <= b)
    (Atkinson.distributeAtkinsonError x y width height eR eG eB step).
Proof.
  intros Hx Hs. unfold Atkinson.distributeAtkinsonError. cbv zeta.
  repeat (apply ww_bind; [ww_kernel|intros _]). ww_kernel.
Qed.

Lemma fs_fill_ww x y width height step :
  0 <= x ->
  writes_within id width
    (fun a b => x <= a < x + step /\ y <= b < y + step /\ ~ (a = x /\ b = y))
    (FloydSteinberg.fillPixelBlock x y width height step).
Proof.
  intros Hx. rewrite FS_fill_unfold.
  apply ww_bind; [apply ww_get_px|intros c0].
  apply ww_bind; [apply ww_get_px|intros c1].
  apply ww_bind; [apply ww_get_px|intros c2].
  apply block_fill_ww. exact Hx.
Qed.

Lemma fs_body_ww x y width height palette step :
  0 <= x < width -> 1 <= step ->
  writes_within id width (later_region x y step)
    (FloydSteinberg.processPixel x y width height palette step ;;;
     when (step >? 1) (FloydSteinberg.fillPixelBlock x y width height step)).
Proof.
  intros Hx Hs. unfold FloydSteinberg.processPixel, later_region.
  apply ww_bind; [apply ww_bind|intros _].
  - eapply ww_weaken; [apply quantize_ww; exact Hx|]. cbv beta. intros a b [-> ->]. lia.
  - intros [[eR eG] eB]. eapply ww_weaken; [apply fs_distribute_ww; assumption|].
    cbv beta. intros a b. lia.
  - apply ww_when. intros _. eapply ww_weaken; [apply fs_fill_ww; lia|].
    cbv beta. intros a b. lia.
Qed.

Lemma fs_body_len n x y width height palette step :
  hoare (len_is n)
    (FloydSteinberg.processPixel x y width height palette step ;;;
     when (step >? 1) (FloydSteinberg.fillPixelBlock x y width height step))
    (len_is n).
Proof.
  unfold FloydSteinberg.processPixel, quantizeAnchor,
    FloydSteinberg.distributeFloydSteinbergError, applyError,
    FloydSteinberg.fillPixelBlock.
  len_tac.
Qed.

(** After the body at anchor [(x, y)] every pixel of its block holds the
    anchor's palette colour with alpha 255. *)
Lemma fs_body_establish palette n width height x y step px py :
  palette_bytes palette -> Z.of_nat n = width * height * 4 -> 1 <= step ->
  0 <= x -> 0 <= y -> x <= px < x + step -> px < width ->
  y <= py < y + step -> py < height ->
  hoare (len_is n)
    (FloydSteinberg.processPixel x y width height palette step ;;;
     when (step >? 1) (FloydSteinberg.fillPixelBlock x y width height step))
    (fun p => len_is n p /\ block_ok palette width x y px py p).
Proof.
  intros Hpal Hn Hs Hx Hy Hpx Hpxw Hpy Hpyh.
  assert (Hanchor : hoare (len_is n) (FloydSteinberg.processPixel x y width height palette step)
                      (fun p => len_is n p /\ block_ok palette width x y x y p)).
  { unfold FloydSteinberg.processPixel.
    apply hoare_bind with (fun p => len_is n p /\ block_ok palette width x y x y p).
    - apply (quantize_establish width height); try assumption; lia.
    - intros [[eR eG] eB].
      apply (hoare_block_ok id (len_is n) width
               (fun a b => (x + step <= a /\ b = y) \/ y + step <= b)).
      + unfold FloydSteinberg.distributeFloydSteinbergError, applyError. len_tac.
      + apply fs_distribute_ww; lia.
      + lia.
      + lia.
      + lia.
      + lia. }
  destruct (decide (px = x /\ py = y)) as [[-> ->]|Hne].
  - apply hoare_bind with (fun p => len_is n p /\ block_ok palette width x y x y p);
      [exact Hanchor|intros _].
    apply hoare_when; [intros _|tauto].
    apply (hoare_block_ok id (len_is n) width
             (fun a b => x <= a < x + step /\ y <= b < y + step /\ ~ (a = x /\ b = y))).
    + unfold FloydSteinberg.fillPixelBlock. len_tac.
    + apply fs_fill_ww. exact Hx.
    + lia.
    + lia.
    + tauto.
    + tauto.
  - apply hoare_bind with (fun p => len_is n p /\ block_ok palette width x y x y p);
      [exact Hanchor|intros _].
    replace (step >? 1) with true by (symmetry; apply Z.gtb_lt; lia).
    cbv [when]. rewrite FS_fill_unfold.
    intros p a p' [Hl [Hin _]] E. unfold bind at 1 2 3, get_px in E.
    assert (Ea : px_rgb p width x y = (read p ((y * width + x) * 4),
               read p ((y * width + x) * 4 + 1), read p ((y * width + x) * 4 + 2)))
      by (unfold px_rgb, pidx; rewrite Z.add_0_r; reflexivity).
    rewrite Ea in Hin.
    refine (block_fill_establish palette n width height x y step px py _ _ _
              Hn Hx Hy ltac:(lia) ltac:(lia) Hne Hin Hpal p a p' _ E).
    split; [exact Hl|exact Ea].
Qed.

Lemma later_not_in_block x y step x0 y0 qx qy :
  x0 <= qx < x0 + step -> y0 <= qy < y0 + step ->
  y0 + step <= y \/ (y = y0 /\ x0 + step <= x) ->
  ~ later_region x y step qx qy.
Proof. unfold later_region. lia. Qed.

Lemma fs_loop_blocks palette n width height step px py :
  palette_bytes palette -> Z.of_nat n = width * height * 4 -> 1 <= step ->
  0 <= px < width -> 0 <= py < height ->
  hoare (len_is n) (FloydSteinberg.loop width height palette step)
    (fun p => len_is n p /\
       block_ok palette width (step * (px / step)) (step * (py / step)) px py p).
Proof.
  intros Hpal Hn Hs Hpx Hpy.
  pose proof (block_anchor_bounds step px Hs ltac:(lia)) as Bx.
  pose proof (block_anchor_bounds step py Hs ltac:(lia)) as By.
  unfold FloydSteinberg.loop.
  apply (scan_establish _ _ _ _ _ _ (step * (px / step)) (step * (py / step)));
    [exact Hs|apply js_for_block_anchor; lia
                        |apply js_for_block_anchor; lia| | |].
  - intros x y _ _. apply fs_body_len.
  - apply fs_body_establish; try assumption; lia.
  - intros x y Hx Hy Hlater.
    apply js_for_in in Hx; [|exact Hs]. apply js_for_in in Hy; [|exact Hs].
    apply (hoare_block_ok id (len_is n) width (later_region x y step)).
    + apply fs_body_len.
    + apply fs_body_ww; lia.
    + lia.
    + lia.
    + apply (later_not_in_block _ _ step (step * (px / step)) (step * (py / step))); lia.
    + apply (later_not_in_block _ _ step (step * (px / step)) (step * (py / step))); lia.
Qed.

Lemma run_apply_hoare loop w input palette step buf w' r (Q : list Z -> Prop) :
  heap w !! data input = Some buf ->
  hoare (len_is (length buf)) loop Q ->
  run_apply loop w input palette step = (w', inr r) ->
  width r = width input /\ height r = height input /\
  exists out, heap w' !! data r = Some out /\ Q out.
Proof.
  intros Hin HQ. unfold run_apply.
  destruct (length palette =? 0)%nat; [discriminate|].
  destruct (step <? 1) eqn:Es; [discriminate|].
  pose proof (alloc_copy_buffer w (data input)) as Hbuf.
  destruct (alloc_copy w (data input)) as [q w1]. simpl in Hbuf.
  destruct (loop (buffer_of w1 q)) as [e|[[] pixels]] eqn:E; [discriminate|].
  intros [= <- <-]. simpl. split; [reflexivity|split; [reflexivity|]].
  exists pixels. rewrite lookup_insert_eq. split; [reflexivity|].
  eapply HQ; [|exact E]. rewrite Hbuf, Hin. reflexivity.
Qed.

Lemma run_apply_step loop w input palette step w' r :
  run_apply loop w input palette step = (w', inr r) -> 1 <= step.
Proof.
  unfold run_apply. destruct (length palette =? 0)%nat; [discriminate|].
  destruct (step <? 1) eqn:Es; [discriminate|]. intros _. lia.
Qed.

(** X1: after FloydSteinberg.apply succeeds on a well-formed image, every pixel
    of the output has the colour of the anchor pixel of its step-by-step block,
    that colour is a palette entry, and the pixel is opaque. *)
Theorem fs_output_blocks (w : World) (input : ImageData) (palette : list color)
    (step : Z) (buf : list Z) (w' : World) (r : ImageData) (px py : Z)
    (Hin : heap w !! data input = Some buf)
    (Hlen : Z.of_nat (length buf) = width input * height input * 4)
    (Hpal : palette_bytes palette)
    (Happ : FloydSteinberg.apply w input palette step = (w', inr r))
    (Hpx : 0 <= px < width input) (Hpy : 0 <= py < height input) :
  exists out, heap w' !! data r = Some out /\
    block_ok palette (width input) (step * (px / step)) (step * (py / step)) px py out.
Proof.
  pose proof (run_apply_step _ _ _ _ _ _ _ Happ) as Hs.
  destruct (run_apply_hoare _ _ _ _ _ buf _ _ _ Hin
              (fs_loop_blocks palette (length buf) (width input) (height input) step px py
                 Hpal Hlen Hs Hpx Hpy) Happ) as (_ & _ & out & Hout & _ & Hb).
  exists out. split; assumption.
Qed.

Lemma atkinson_body_ww x y width height palette step :
  0 <= x < width -> 1 <= step ->
  writes_within id width (later_region x y step)
    (Atkinson.processPixel x y width height palette step).
Proof.
  intros Hx Hs. unfold Atkinson.processPixel, later_region.
  apply ww_bind.
  - eapply ww_weaken; [apply quantize_ww; exact Hx|]. cbv beta. intros a b [-> ->]. lia.
  - intros [[eR eG] eB]. eapply ww_weaken; [apply atkinson_distribute_ww; assumption|].
    cbv beta. intros a b. lia.
Qed.

Lemma atkinson_body_len n x y width height palette step :
  hoare (len_is n) (Atkinson.processPixel x y width height palette step) (len_is n).
Proof.
  unfold Atkinson.processPixel, quantizeAnchor, Atkinson.distributeAtkinsonError, applyError.
  len_tac.
Qed.

Lemma atkinson_body_establish palette n width height x y step :
  palette_bytes palette -> Z.of_nat n = width * height * 4 -> 1 <= step ->
  0 <= x < width -> 0 <= y < height ->
  hoare (len_is n) (Atkinson.processPixel x y width height palette step)
    (fun p => len_is n p /\ block_ok palette width x y x y p).
Proof.
  intros Hpal Hn Hs Hx Hy. unfold Atkinson.processPixel.
  apply hoare_bind with (fun p => len_is n p /\ block_ok palette width x y x y p).
  - apply (quantize_establish width height); assumption.
  - intros [[eR eG] eB].
    apply (hoare_block_ok id (len_is n) width
             (fun a b => (x + step <= a /\ b = y) \/ y + step <= b)).
    + unfold Atkinson.distributeAtkinsonError, applyError. len_tac.
    + apply atkinson_distribute_ww; lia.
    + lia.
    + lia.
    + lia.
    + lia.
Qed.

Lemma atkinson_loop_anchors palette n width height step px py :
  palette_bytes palette -> Z.of_nat n = width * height * 4 -> 1 <= step ->
  0 <= px < width -> 0 <= py < height ->
  hoare (len_is n) (Atkinson.loop width height palette step)
    (fun p => len_is n p /\
       block_ok palette width (step * (px / step)) (step * (py / step))
                (step * (px / step)) (step * (py / step)) p).
Proof.
  intros Hpal Hn Hs Hpx Hpy.
  pose proof (block_anchor_bounds step px Hs ltac:(lia)) as Bx.
  pose proof (block_anchor_bounds step py Hs ltac:(lia)) as By.
  unfold Atkinson.loop.
  apply (scan_establish _ _ _ _ _ _ (step * (px / step)) (step * (py / step)));
    [exact Hs|apply js_for_block_anchor; lia|apply js_for_block_anchor; lia| | |].
  - intros x y _ _. apply atkinson_body_len.
  - apply atkinson_body_establish; try assumption; lia.
  - intros x y Hx Hy Hlater.
    apply js_for_in in Hx; [|exact Hs]. apply js_for_in in Hy; [|exact Hs].
    apply (hoare_block_ok id (len_is n) width (later_region x y step)).
    + apply atkinson_body_len.
    + apply atkinson_body_ww; lia.
    + lia.
    + lia.
    + apply (later_not_in_block _ _ step (step * (px / step)) (step * (py / step))); lia.
    + apply (later_not_in_block _ _ step (step * (px / step)) (step * (py / step))); lia.
Qed.

(** X2: after Atkinson.apply succeeds on a well-formed image, every block anchor
    pixel (both coordinates multiples of the step) holds a palette colour and is
    opaque. *)
Theorem atkinson_anchor_output (w : World) (input : ImageData) (palette : list color)
    (step : Z) (buf : list Z) (w' : World) (r : ImageData) (px py : Z)
    (Hin : heap w !! data input = Some buf)
    (Hlen : Z.of_nat (length buf) = width input * height input * 4)
    (Hpal : palette_bytes palette)
    (Happ : Atkinson.apply w input palette step = (w', inr r))
    (Hpx : 0 <= px < width input) (Hpy : 0 <= py < height input)
    (Hax : (step | px)) (Hay : (step | py)) :
  exists out, heap w' !! data r = Some out /\
    px_rgb out (width input) px py ∈ palette /\ read out (pidx (width input) px py 3) = 255.
Proof.
  pose proof (run_apply_step _ _ _ _ _ _ _ Happ) as Hs.
  destruct (run_apply_hoare _ _ _ _ _ buf _ _ _ Hin
              (atkinson_loop_anchors palette (length buf) (width input) (height input)
                 step px py Hpal Hlen Hs Hpx Hpy) Happ) as (_ & _ & out & Hout & _ & Hb).
  assert (Ex : step * (px / step) = px)
    by (destruct Hax as [k ->]; rewrite Z.div_mul by lia; lia).
  assert (Ey : step * (py / step) = py)
    by (destruct Hay as [k ->]; rewrite Z.div_mul by lia; lia).
  rewrite Ex, Ey in Hb. destruct Hb as (H1 & _ & H3).
  exists out. split; [exact Hout|split; assumption].
Qed.

(** ** Ordered dithering *)

Lemma hoare_on_pixels {A} (P Q : list Z -> Prop) (m : SM (list Z) A) :
  hoare P m Q -> hoare (fun s : Ordered.state => P (fst s)) (Ordered.on_pixels m)
                       (fun s => Q (fst s)).
Proof.
  intros H [p k] a s' Hp E. unfold Ordered.on_pixels in E.
  destruct (m p) as [e|[b p']] eqn:Em; [discriminate|].
  injection E as _ <-. simpl in *. eapply H; eauto.
Qed.

Lemma ww_on_pixels {A} width R (m : SM (list Z) A) :
  writes_within id width R m -> writes_within fst width R (Ordered.on_pixels m).
Proof.
  intros H qx qy c Hx Hc HR [p k] a s' E. unfold Ordered.on_pixels in E.
  destruct (m p) as [e|[b p']] eqn:Em; [discriminate|].
  injection E as _ <-. simpl. exact (H qx qy c Hx Hc HR p b p' Em).
Qed.

Lemma applyOrderedDithering_spec random old x y step palette s c s' :
  Ordered.applyOrderedDithering random old x y step palette s = inr (c, s') ->
  fst s' = fst s /\ c ∈ palette.
Proof.
  destruct s as [p k]. destruct old as [[o0 o1] o2].
  unfold Ordered.applyOrderedDithering, bind, Ordered.Math_random, lift_exn.
  destruct (findClosestColor _ palette) as [e|c'] eqn:F; [discriminate|].
  intros [= <- <-]. split; [reflexivity|]. eapply findClosestColor_in. exact F.
Qed.

Lemma ww_applyOrderedDithering width R random old x y step palette :
  writes_within fst width R (Ordered.applyOrderedDithering random old x y step palette).
Proof.
  intros qx qy c _ _ _ s a s' E.
  apply applyOrderedDithering_spec in E. destruct E as [-> _]. reflexivity.
Qed.

Lemma hoare_applyOrderedDithering (P : list Z -> Prop) random old x y step palette :
  hoare (fun s : Ordered.state => P (fst s))
    (Ordered.applyOrderedDithering random old x y step palette) (fun s => P (fst s)).
Proof.
  intros s a s' H E. apply applyOrderedDithering_spec in E. destruct E as [-> _]. exact H.
Qed.

Lemma ordered_body_ww random x y width height palette step :
  0 <= x < width -> 1 <= step ->
  writes_within fst width (later_region x y step)
    (Ordered.anchor random x y width height palette step).
Proof.
  intros Hx Hs. unfold Ordered.anchor, later_region.
  apply ww_bind; [apply ww_on_pixels, ww_get_px|intros o0].
  apply ww_bind; [apply ww_on_pixels, ww_get_px|intros o1].
  apply ww_bind; [apply ww_on_pixels, ww_get_px|intros o2].
  apply ww_bind; [apply ww_applyOrderedDithering|intros [[n0 n1] n2]].
  apply ww_on_pixels.
  apply ww_bind; [apply (ww_set_px _ _ _ _ x y 0); [lia|lia|lia|unfold pidx; lia]|intros _].
  apply ww_bind; [apply (ww_set_px _ _ _ _ x y 1); [lia|lia|lia|unfold pidx; lia]|intros _].
  apply ww_bind; [apply (ww_set_px _ _ _ _ x y 2); [lia|lia|lia|unfold pidx; lia]|intros _].
  apply ww_bind; [apply (ww_set_px _ _ _ _ x y 3); [lia|lia|lia|unfold pidx; lia]|intros _].
  apply ww_when. intros _. rewrite Ordered_fill_unfold.
  eapply ww_weaken; [apply block_fill_ww; lia|]. cbv beta. intros a b. lia.
Qed.

Lemma ordered_body_len n random x y width height palette step :
  hoare (fun s : Ordered.state => len_is n (fst s))
    (Ordered.anchor random x y width height palette step)
    (fun s => len_is n (fst s)).
Proof.
  unfold Ordered.anchor.
  apply hoare_bind_inv; [apply hoare_on_pixels, hoare_get_inv|intros o0].
  apply hoare_bind_inv; [apply hoare_on_pixels, hoare_get_inv|intros o1].
  apply hoare_bind_inv; [apply hoare_on_pixels, hoare_get_inv|intros o2].
  apply hoare_bind_inv; [apply hoare_applyOrderedDithering|intros [[n0 n1] n2]].
  apply hoare_on_pixels. unfold Ordered.fillPixelBlock. len_tac.
Qed.

(** The buffer-level tail of [anchor]: the four writes of the new colour
    and the block fill. *)
Lemma ordered_tail_establish palette n width height x y step px py n0 n1 n2 :
  palette_bytes palette -> Z.of_nat n = width * height * 4 -> 1 <= step ->
  0 <= x -> 0 <= y -> x <= px < x + step -> px < width ->
  y <= py < y + step -> py < height -> (n0, n1, n2) ∈ palette ->
  hoare (len_is n)
    (set_px ((y * width + x) * 4) (inject_Z n0) ;;;
     set_px ((y * width + x) * 4 + 1) (inject_Z n1) ;;;
     set_px ((y * width + x) * 4 + 2) (inject_Z n2) ;;;
     set_px ((y * width + x) * 4 + 3) (inject_Z 255) ;;;
     when (step >? 1) (Ordered.fillPixelBlock x y width height step (n0, n1, n2)))
    (fun p => len_is n p /\ block_ok palette width x y px py p).
Proof.
  intros Hpal Hn Hs Hx Hy Hpx Hpxw Hpy Hpyh Hin p a p' Hl E.
  unfold bind at 1 2 3 4, set_px at 1 2 3 4 in E.
  destruct (palette_bytes_in _ _ _ _ Hpal Hin) as (B0 & B1 & B2).
  set (p1 := write (write (write (write p ((y * width + x) * 4) (inject_Z n0))
               ((y * width + x) * 4 + 1) (inject_Z n1))
               ((y * width + x) * 4 + 2) (inject_Z n2))
               ((y * width + x) * 4 + 3) (inject_Z 255)) in E.
  assert (L1 : len_is n p1) by (unfold p1, len_is in *; rewrite !length_write; exact Hl).
  assert (A1 : px_rgb p1 width x y = (n0, n1, n2) /\ read p1 (pidx width x y 3) = 255).
  { pose proof (pidx_in_range width height x y 0 n Hn ltac:(lia) ltac:(lia) ltac:(lia)) as R0.
    pose proof (pidx_in_range width height x y 1 n Hn ltac:(lia) ltac:(lia) ltac:(lia)) as R1.
    pose proof (pidx_in_range width height x y 2 n Hn ltac:(lia) ltac:(lia) ltac:(lia)) as R2.
    pose proof (pidx_in_range width height x y 3 n Hn ltac:(lia) ltac:(lia) ltac:(lia)) as R3.
    unfold len_is in Hl. unfold pidx in *. rewrite <- Hl in R0, R1, R2, R3.
    unfold p1, px_rgb, pidx.
    replace ((y * width + x) * 4 + 0) with ((y * width + x) * 4) by lia.
    repeat first [rewrite read_write_ne by lia
                 | rewrite read_write_eq by (rewrite ?length_write; lia)].
    rewrite !ToUint8Clamp_inject by lia. split; reflexivity. }
  destruct A1 as [A1 A2].
  destruct (decide (px = x /\ py = y)) as [[-> ->]|Hne].
  - assert (Hb : len_is n p1 /\ block_ok palette width x y x y p1)
      by (split; [exact L1|unfold block_ok; rewrite A1; split; [exact Hin|split; [reflexivity|exact A2]]]).
    refine (hoare_when (fun q => len_is n q /\ block_ok palette width x y x y q) _ _ _ _ (fun _ Hq => Hq) p1 a p' Hb E); intros _.
    rewrite Ordered_fill_unfold.
    apply (hoare_block_ok id (len_is n) width
             (fun a b => x <= a < x + step /\ y <= b < y + step /\ ~ (a = x /\ b = y))).
    + len_tac.
    + apply block_fill_ww. exact Hx.
    + lia.
    + lia.
    + tauto.
    + tauto.
  - replace (step >? 1) with true in E by (symmetry; apply Z.gtb_lt; lia).
    cbv [when] in E. rewrite Ordered_fill_unfold in E.
    exact (block_fill_establish palette n width height x y step px py n0 n1 n2
             Hn Hx Hy ltac:(lia) ltac:(lia) Hne Hin Hpal p1 a p' (conj L1 A1) E).
Qed.

Lemma ordered_body_establish palette n random width height x y step px py :
  palette_bytes palette -> Z.of_nat n = width * height * 4 -> 1 <= step ->
  0 <= x -> 0 <= y -> x <= px < x + step -> px < width ->
  y <= py < y + step -> py < height ->
  hoare (fun s : Ordered.state => len_is n (fst s))
    (Ordered.anchor random x y width height palette step)
    (fun s => len_is n (fst s) /\ block_ok palette width x y px py (fst s)).
Proof.
  intros Hpal Hn Hs Hx Hy Hpx Hpxw Hpy Hpyh. unfold Ordered.anchor.
  apply hoare_bind with (fun s : Ordered.state => len_is n (fst s));
    [apply hoare_on_pixels, hoare_get_inv|intros o0].
  apply hoare_bind with (fun s : Ordered.state => len_is n (fst s));
    [apply hoare_on_pixels, hoare_get_inv|intros o1].
  apply hoare_bind with (fun s : Ordered.state => len_is n (fst s));
    [apply hoare_on_pixels, hoare_get_inv|intros o2].
  intros s a s' Hl E. unfold bind at 1 in E.
  destruct (Ordered.applyOrderedDithering _ _ _ _ _ _ s) as [e|[c s1]] eqn:A; [discriminate|].
  apply applyOrderedDithering_spec in A. destruct A as [Af Ain].
  destruct c as [[n0 n1] n2].
  refine (hoare_on_pixels _ _ _
            (ordered_tail_establish palette n width height x y step px py n0 n1 n2
               Hpal Hn Hs Hx Hy Hpx Hpxw Hpy Hpyh Ain) s1 a s' _ E).
  rewrite Af. exact Hl.
Qed.

Lemma ordered_loop_blocks palette n random width height step px py :
  palette_bytes palette -> Z.of_nat n = width * height * 4 -> 1 <= step ->
  0 <= px < width -> 0 <= py < height ->
  hoare (fun s : Ordered.state => len_is n (fst s))
    (Ordered.loop random width height palette step)
    (fun s => len_is n (fst s) /\
       block_ok palette width (step * (px / step)) (step * (py / step)) px py (fst s)).
Proof.
  intros Hpal Hn Hs Hpx Hpy.
  pose proof (block_anchor_bounds step px Hs ltac:(lia)) as Bx.
  pose proof (block_anchor_bounds step py Hs ltac:(lia)) as By.
  unfold Ordered.loop.
  apply (scan_establish _ _ _ _ _ _ (step * (px / step)) (step * (py / step)));
    [exact Hs|apply js_for_block_anchor; lia|apply js_for_block_anchor; lia| | |].
  - intros x y _ _. apply ordered_body_len.
  - apply ordered_body_establish; try assumption; lia.
  - intros x y Hx Hy Hlater.
    apply js_for_in in Hx; [|exact Hs]. apply js_for_in in Hy; [|exact Hs].
    apply (hoare_block_ok fst (fun s : Ordered.state => len_is n (fst s)) width
             (later_region x y step)).
    + apply ordered_body_len.
    + apply ordered_body_ww; lia.
    + lia.
    + lia.
    + apply (later_not_in_block _ _ step (step * (px / step)) (step * (py / step))); lia.
    + apply (later_not_in_block _ _ step (step * (px / step)) (step * (py / step))); lia.
Qed.

Lemma ordered_apply_hoare w input palette step buf w' r (Q : list Z -> Prop) :
  heap w !! data input = Some buf ->
  (forall random, hoare (fun s : Ordered.state => len_is (length buf) (fst s))
     (Ordered.loop random (width input) (height input) palette step)
     (fun s => Q (fst s))) ->
  Ordered.apply w input palette step = (w', inr r) ->
  width r = width input /\ height r = height input /\
  exists out, heap w' !! data r = Some out /\ Q out.
Proof.
  intros Hin HQ. unfold Ordered.apply.
  destruct (length palette =? 0)%nat; [discriminate|].
  destruct (step <? 1) eqn:Es; [discriminate|].
  pose proof (alloc_copy_buffer w (data input)) as Hbuf.
  destruct (alloc_copy w (data input)) as [q w1]. simpl in Hbuf.
  destruct (Ordered.loop _ _ _ _ _ _) as [e|[[] [pixels k]]] eqn:E; [discriminate|].
  intros [= <- <-]. simpl. split; [reflexivity|split; [reflexivity|]].
  exists pixels. rewrite lookup_insert_eq. split; [reflexivity|].
  refine (HQ _ _ _ _ _ E). simpl. rewrite Hbuf, Hin. reflexivity.
Qed.

(** X3: after Ordered.apply succeeds on a well-formed image, every pixel of the
    output has the colour of the anchor pixel of its block, that colour is a
    palette entry, and the pixel is opaque. *)
Theorem ordered_output_blocks (w : World) (input : ImageData) (palette : list color)
    (step : Z) (buf : list Z) (w' : World) (r : ImageData) (px py : Z)
    (Hin : heap w !! data input = Some buf)
    (Hlen : Z.of_nat (length buf) = width input * height input * 4)
    (Hpal : palette_bytes palette)
    (Happ : Ordered.apply w input palette step = (w', inr r))
    (Hpx : 0 <= px < width input) (Hpy : 0 <= py < height input) :
  exists out, heap w' !! data r = Some out /\
    block_ok palette (width input) (step * (px / step)) (step * (py / step)) px py out.
Proof.
  assert (Hs : 1 <= step).
  { revert Happ. unfold Ordered.apply. destruct (length palette =? 0)%nat; [discriminate|].
    destruct (step <? 1) eqn:Es; [discriminate|]. intros _. lia. }
  destruct (ordered_apply_hoare _ _ _ _ buf _ _
              (fun p => len_is (length buf) p /\ block_ok palette (width input)
                          (step * (px / step)) (step * (py / step)) px py p) Hin
              (fun random => ordered_loop_blocks palette (length buf) random
                 (width input) (height input) step px py Hpal Hlen Hs Hpx Hpy) Happ)
    as (_ & _ & out & Hout & _ & Hb).
  exists out. split; assumption.
Qed.

Lemma fs_output_blocks_witness :
  exists out,
    heap (fst (FloydSteinberg.apply grey_world grey_input PALETTE_BW 2)) !! 2%positive = Some out
    /\ block_ok PALETTE_BW 2 0 0 1 1 out.
Proof.
  exact (fs_output_blocks grey_world grey_input PALETTE_BW 2
           [0; 0; 0; 0; 100; 100; 100; 0; 100; 100; 100; 0; 100; 100; 100; 0]
           (fst (FloydSteinberg.apply grey_world grey_input PALETTE_BW 2))
           (mkImageData 2 2 2) 1 1 eq_refl eq_refl
           ltac:(unfold palette_bytes, PALETTE_BW; repeat constructor; simpl; lia)
           ltac:(vm_compute; reflexivity) ltac:(simpl; lia) ltac:(simpl; lia)).
Defined.

Lemma atkinson_anchor_output_witness :
  exists out,
    heap (fst (Atkinson.apply grey_world grey_input PALETTE_BW 1)) !! 2%positive = Some out
    /\ px_rgb out 2 1 0 ∈ PALETTE_BW /\ read out (pidx 2 1 0 3) = 255.
Proof.
  exact (atkinson_anchor_output grey_world grey_input PALETTE_BW 1
           [0; 0; 0; 0; 100; 100; 100; 0; 100; 100; 100; 0; 100; 100; 100; 0]
           (fst (Atkinson.apply grey_world grey_input PALETTE_BW 1))
           (mkImageData 2 2 2) 1 0 eq_refl eq_refl
           ltac:(unfold palette_bytes, PALETTE_BW; repeat constructor; simpl; lia)
           ltac:(vm_compute; reflexivity) ltac:(simpl; lia) ltac:(simpl; lia)
           ltac:(exists 1; lia) ltac:(exists 0; lia)).
Defined.

Lemma ordered_output_blocks_witness :
  exists out,
    heap (fst (Ordered.apply grey_world grey_input PALETTE_BW 2)) !! 2%positive = Some out
    /\ block_ok PALETTE_BW 2 0 0 1 1 out.
Proof.
  exact (ordered_output_blocks grey_world grey_input PALETTE_BW 2
           [0; 0; 0; 0; 100; 100; 100; 0; 100; 100; 100; 0; 100; 100; 100; 0]
           (fst (Ordered.apply grey_world grey_input PALETTE_BW 2))
           (mkImageData 2 2 2) 1 1 eq_refl eq_refl
           ltac:(unfold palette_bytes, PALETTE_BW; repeat constructor; simpl; lia)
           ltac:(vm_compute; reflexivity) ltac:(simpl; lia) ltac:(simpl; lia)).
Defined.

(** ** Shape of the result *)

Lemma atkinson_loop_len n width height palette step :
  hoare (len_is n) (Atkinson.loop width height palette step) (len_is n).
Proof.
  unfold Atkinson.loop, scan_blocks. apply hoare_mfor_inv. intros y _.
  apply hoare_mfor_inv. intros x _. apply atkinson_body_len.
Qed.

Lemma fs_loop_len n width height palette step :
  hoare (len_is n) (FloydSteinberg.loop width height palette step) (len_is n).
Proof.
  unfold FloydSteinberg.loop, scan_blocks. apply hoare_mfor_inv. intros y _.
  apply hoare_mfor_inv. intros x _. apply fs_body_len.
Qed.

Lemma ordered_loop_len n random width height palette step :
  hoare (fun s : Ordered.state => len_is n (fst s))
    (Ordered.loop random width height palette step) (fun s => len_is n (fst s)).
Proof.
  unfold Ordered.loop, scan_blocks. apply hoare_mfor_inv. intros y _.
  apply hoare_mfor_inv. intros x _. apply ordered_body_len.
Qed.

(** X4: each of the three built-in apply functions returns an image with the
    input's width and height whose buffer has the input buffer's length. *)
Theorem apply_preserves_shape (w : World) (input : ImageData) (palette : list color)
    (step : Z) (buf : list Z) (w' : World) (r : ImageData)
    (Hin : heap w !! data input = Some buf) :
  let shape_ok := width r = width input /\ height r = height input /\
                  exists out, heap w' !! data r = Some out /\ length out = length buf in
  (Atkinson.apply w input palette step = (w', inr r) -> shape_ok) /\
  (FloydSteinberg.apply w input palette step = (w', inr r) -> shape_ok) /\
  (Ordered.apply w input palette step = (w', inr r) -> shape_ok).
Proof.
  cbv zeta. split; [|split]; intros Happ.
  - exact (run_apply_hoare _ _ _ _ _ buf _ _ (len_is (length buf)) Hin
             (atkinson_loop_len _ _ _ _ _) Happ).
  - exact (run_apply_hoare _ _ _ _ _ buf _ _ (len_is (length buf)) Hin
             (fs_loop_len _ _ _ _ _) Happ).
  - exact (ordered_apply_hoare _ _ _ _ buf _ _ (len_is (length buf)) Hin
             (fun random => ordered_loop_len _ random _ _ _ _) Happ).
Qed.

Lemma apply_preserves_shape_witness :
  exists out,
    heap (fst (Ordered.apply grey_world grey_input PALETTE_BW 1)) !! 2%positive = Some out
    /\ length out = 16%nat.
Proof.
  destruct (proj2 (proj2 (apply_preserves_shape grey_world grey_input PALETTE_BW 1
              [0; 0; 0; 0; 100; 100; 100; 0; 100; 100; 100; 0; 100; 100; 100; 0]
              (fst (Ordered.apply grey_world grey_input PALETTE_BW 1))
              (mkImageData 2 2 2) eq_refl))) as (_ & _ & out & H1 & H2);
    [vm_compute; reflexivity|].
  exists out. split; [exact H1|exact H2].
Defined.

(** ** Math.random() draws of the ordered algorithm *)


Lemma advances_bind {A B} c d (m : SM Ordered.state A) (k : A -> SM Ordered.state B) :
  advances c m -> (forall a, advances d (k a)) -> advances (c + d) (bind m k).
Proof.
  intros Hm Hk s b s' E. unfold bind in E.
  destruct (m s) as [e|[a s1]] eqn:Em; [discriminate|].
  rewrite (Hk a s1 b s' E), (Hm s a s1 Em). lia.
Qed.

Lemma advances_on_pixels {A} (m : SM (list Z) A) : advances 0 (Ordered.on_pixels m).
Proof.
  intros [p k] a s' E. unfold Ordered.on_pixels in E.
  destruct (m p) as [e|[b p']]; [discriminate|]. injection E as _ <-. simpl. lia.
Qed.

Lemma advances_applyOrderedDithering random old x y step palette :
  advances 3 (Ordered.applyOrderedDithering random old x y step palette).
Proof.
  intros [p k] a s'. destruct old as [[o0 o1] o2].
  unfold Ordered.applyOrderedDithering, bind, Ordered.Math_random, lift_exn.
  destruct (findClosestColor _ palette); [discriminate|].
  intros [= _ <-]. simpl. lia.
Qed.

Lemma advances_anchor random x y width height palette step :
  advances 3 (Ordered.anchor random x y width height palette step).
Proof.
  unfold Ordered.anchor.
  change 3%nat with (0 + (0 + (0 + (3 + 0))))%nat.
  apply advances_bind; [apply advances_on_pixels|intros o0].
  apply advances_bind; [apply advances_on_pixels|intros o1].
  apply advances_bind; [apply advances_on_pixels|intros o2].
  apply advances_bind; [apply advances_applyOrderedDithering|intros [[n0 n1] n2]].
  apply advances_on_pixels.
Qed.

Lemma advances_mfor c (l : list Z) (body : Z -> SM Ordered.state unit) :
  (forall v, advances c (body v)) -> advances (c * length l) (mfor l body).
Proof.
  intros H. induction l as [|v l IH]; simpl.
  - intros s a s' [= _ <-]. lia.
  - replace (c * S (length l))%nat with (c + c * length l)%nat by lia.
    apply advances_bind; [apply H|intros _; exact IH].
Qed.

Lemma upto_step_length fuel v bound step :
  1 <= step -> bound - v <= Z.of_nat fuel ->
  length (upto_step fuel v bound step) = Z.to_nat ((bound - v + step - 1) / step).
Proof.
  intros Hs. revert v. induction fuel as [|fuel IH]; intros v Hf; simpl.
  - assert ((bound - v + step - 1) / step < 1); [|lia].
    apply Z.div_lt_upper_bound; lia.
  - destruct (v <? bound) eqn:E.
    + apply Z.ltb_lt in E. simpl. rewrite IH by lia.
      replace (bound - v + step - 1) with ((bound - (v + step) + step - 1) + 1 * step) by lia.
      rewrite Z.div_add by lia.
      assert (0 <= (bound - (v + step) + step - 1) / step) by (apply Z.div_pos; lia).
      lia.
    + apply Z.ltb_ge in E. simpl.
      assert ((bound - v + step - 1) / step < 1); [|lia].
      apply Z.div_lt_upper_bound; lia.
Qed.

Lemma js_for_length bound step :
  1 <= step -> length (js_for 0 bound step) = Z.to_nat ((bound + step - 1) / step).
Proof.
  intros Hs. unfold js_for. rewrite upto_step_length by lia. f_equal. f_equal. lia.
Qed.

(** X5: a successful Ordered.apply draws Math.random() exactly three times per
    block, and leaves the random source itself unchanged. *)
Theorem ordered_random_draws (w : World) (input : ImageData) (palette : list color)
    (step : Z) (w' : World) (r : ImageData)
    (Happ : Ordered.apply w input palette step = (w', inr r)) :
  rand_draw w' = rand_draw w /\
  rand_pos w' = (rand_pos w + 3 * Z.to_nat ((height input + step - 1) / step)
                            * Z.to_nat ((width input + step - 1) / step))%nat.
Proof.
  revert Happ. unfold Ordered.apply.
  destruct (length palette =? 0)%nat; [discriminate|].
  destruct (step <? 1) eqn:Es; [discriminate|]. apply Z.ltb_ge in Es.
  destruct (alloc_copy w (data input)) as [q w1] eqn:A.
  destruct (Ordered.loop _ _ _ _ _ _) as [e|[[] [pixels k]]] eqn:E; [discriminate|].
  intros [= <- _]. simpl.
  assert (Hw1 : rand_draw w1 = rand_draw w /\ rand_pos w1 = rand_pos w)
    by (unfold alloc_copy in A; injection A as _ <-; split; reflexivity).
  destruct Hw1 as [D P]. split; [exact D|].
  unfold Ordered.loop, scan_blocks in E.
  pose proof (advances_mfor _ (js_for 0 (height input) step) _
                (fun y => advances_mfor _ (js_for 0 (width input) step) _
                   (fun x => advances_anchor (rand_draw w1) x y (width input) (height input)
                               palette step)))
    as H.
  specialize (H _ _ _ E). simpl in H. rewrite H, P, !js_for_length by lia. lia.
Qed.

Lemma ordered_random_draws_witness :
  rand_pos (fst (Ordered.apply grey_world grey_input PALETTE_BW 1)) = 12%nat.
Proof.
  exact (proj2 (ordered_random_draws grey_world grey_input PALETTE_BW 1
                  (fst (Ordered.apply grey_world grey_input PALETTE_BW 1))
                  (mkImageData 2 2 2) ltac:(vm_compute; reflexivity))).
Defined.

(** ** The pipeline with the built-in registry *)


Lemma validateOptions_ok options u :
  validateOptions options = inr u ->
  (forall s, opt_step options = Some s -> 0 < s) /\
  (forall p, opt_palette options = Some p -> p <> []) /\
  (forall a, opt_algorithm options = Some a -> a ∈ validAlgorithms).
Proof.
  unfold validateOptions.
  destruct (opt_step options) as [s|]; [destruct (s <=? 0) eqn:Es; [discriminate|]|];
  (destruct (opt_quality options) as [q|];
   [destruct (Qlt_bool q 0 || Qlt_bool 1 q); [discriminate|]|]);
  (destruct (opt_width options) as [v|]; [destruct (v <=? 0); [discriminate|]|]);
  (destruct (opt_height options) as [v'|]; [destruct (v' <=? 0); [discriminate|]|]);
  (destruct (opt_palette options) as [p|];
   [destruct (length p =? 0)%nat eqn:Ep; [discriminate|]|]);
  (destruct (opt_algorithm options) as [a|];
   [destruct (bool_decide (a ∈ validAlgorithms)) eqn:Ea; [|discriminate]|]);
  intros _; repeat split; intros ? H; try discriminate; injection H as <-;
  try (apply Z.leb_gt in Es; lia);
  try (destruct p; [discriminate|congruence]);
  try (apply bool_decide_eq_true in Ea; exact Ea).
Qed.

Lemma algorithmNameOf_valid options u :
  validateOptions options = inr u -> algorithmNameOf options ∈ validAlgorithms.
Proof.
  intros V. destruct (validateOptions_ok options u V) as (_ & _ & Halg).
  unfold algorithmNameOf. destruct (opt_algorithm options) as [a|] eqn:Ea.
  - destruct (bool_decide (a = ""%string)); [|exact (Halg a eq_refl)].
    unfold validAlgorithms. apply elem_of_cons. left. reflexivity.
  - unfold validAlgorithms. apply elem_of_cons. left. reflexivity.
Qed.

Lemma builtin_apply_ok alg w input palette step :
  alg ∈ builtin_algorithms -> palette <> [] -> 1 <= step ->
  exists w' r, alg_apply alg w input palette step = (w', inr r).
Proof.
  intros Halg Hne Hs. unfold builtin_algorithms in Halg.
  repeat rewrite elem_of_cons in Halg. rewrite elem_of_nil in Halg.
  destruct Halg as [->|[->|[->|[]]]]; simpl.
  - apply (run_apply_validation (Atkinson.loop _ _ _ _)); [exact Hne|exact Hs|].
    apply Atkinson_loop_total. exact Hne.
  - apply (run_apply_validation (FloydSteinberg.loop _ _ _ _)); [exact Hne|exact Hs|].
    apply FloydSteinberg_loop_total. exact Hne.
  - apply Ordered_apply_validation; [exact Hne|exact Hs].
Qed.

Lemma builtin_apply_empty alg w input step :
  alg ∈ builtin_algorithms -> alg_apply alg w input [] step = (w, inl EmptyPalette).
Proof.
  intros Halg. unfold builtin_algorithms in Halg.
  repeat rewrite elem_of_cons in Halg. rewrite elem_of_nil in Halg.
  destruct Halg as [->|[->|[->|[]]]]; reflexivity.
Qed.

Lemma builtin_lookup nm :
  nm ∈ validAlgorithms ->
  exists alg, getAlgorithm Registry.algorithms nm = inr alg /\ name alg = nm /\
              alg ∈ builtin_algorithms.
Proof.
  unfold validAlgorithms. intros H.
  repeat rewrite elem_of_cons in H. rewrite elem_of_nil in H.
  unfold builtin_algorithms.
  destruct H as [->|[->|[->|[]]]].
  - exists Registry.atkinsonAlgorithm. split; [reflexivity|split; [reflexivity|]].
    apply elem_of_cons. left. reflexivity.
  - exists Registry.floydSteinbergAlgorithm. split; [reflexivity|split; [reflexivity|]].
    apply elem_of_cons. right. apply elem_of_cons. left. reflexivity.
  - exists Registry.orderedAlgorithm. split; [reflexivity|split; [reflexivity|]].
    apply elem_of_cons. right. apply elem_of_cons. right. apply elem_of_cons. left. reflexivity.
Qed.

(** X6: with the built-in registry, getAlgorithm returns an algorithm of the
    requested name for every valid name, and the unknown-algorithm error
    otherwise. *)
Theorem getAlgorithm_builtin (nm : string) :
  (nm ∈ validAlgorithms ->
     exists alg, getAlgorithm Registry.algorithms nm = inr alg /\ name alg = nm) /\
  (nm ∉ validAlgorithms ->
     getAlgorithm Registry.algorithms nm = inl (UnknownAlgorithm nm)).
Proof.
  split.
  - intros H. destruct (builtin_lookup nm H) as (alg & E & N & _). eauto.
  - intros Hn. unfold getAlgorithm, Registry.get, Registry.algorithms, Registry.register.
    simpl.
    rewrite lookup_insert_ne by (intros <-; apply Hn; unfold validAlgorithms; set_solver).
    rewrite lookup_insert_ne by (intros <-; apply Hn; unfold validAlgorithms; set_solver).
    rewrite lookup_insert_ne by (intros <-; apply Hn; unfold validAlgorithms; set_solver).
    rewrite lookup_empty. reflexivity.
Qed.

Lemma getAlgorithm_builtin_witness :
  getAlgorithm Registry.algorithms "sierra" = inl (UnknownAlgorithm "sierra").
Proof.
  apply (proj2 (getAlgorithm_builtin "sierra")).
  unfold validAlgorithms. intros H. repeat rewrite elem_of_cons in H.
  rewrite elem_of_nil in H. destruct H as [H|[H|[H|[]]]]; discriminate.
Defined.











Lemma Math_round_div (i d : Z) :
  0 < d ->
  Math_round (inject_Z i / inject_Z d * inject_Z 255) = (510 * i + d) / (2 * d).
Proof.
  intros Hd. unfold Math_round. rewrite Zdiv_Qdiv. apply Qfloor_comp.
  assert (Hq : ~ inject_Z d == 0)
    by (change 0%Q with (inject_Z 0); rewrite inject_Z_injective; lia).
  rewrite !inject_Z_plus, !inject_Z_mult. field. exact Hq.
Qed.

Lemma grayscale_lookup levels pal (i : nat) :
  createGrayscalePalette levels = inr pal -> (i < Z.to_nat levels)%nat ->
  let value := (510 * Z.of_nat i + (levels - 1)) / (2 * (levels - 1)) in
  pal !! i = Some (value, value, value).
Proof.
  unfold createGrayscalePalette. destruct (levels <? 2) eqn:E; [discriminate|].
  apply Z.ltb_ge in E. intros [= <-] Hi. cbv zeta.
  rewrite list_lookup_fmap, lookup_seq_lt by exact Hi. simpl.
  rewrite Math_round_div by lia. reflexivity.
Qed.

Lemma grayscale_length levels pal :
  createGrayscalePalette levels = inr pal -> length pal = Z.to_nat levels.
Proof.
  unfold createGrayscalePalette. destruct (levels <? 2); [discriminate|].
  intros [= <-]. rewrite length_map, length_seq. reflexivity.
Qed.

(** X10: createGrayscalePalette rejects fewer than 2 levels; otherwise it
    returns levels grey entries with values in [0, 255], nondecreasing, from
    black to white. *)
Theorem grayscale_palette_shape (levels : Z) :
  (levels < 2 -> createGrayscalePalette levels = inl FewerThanTwoLevels) /\
  (2 <= levels -> exists pal, createGrayscalePalette levels = inr pal /\
     Z.of_nat (length pal) = levels /\
     pal !! 0%nat = Some (0, 0, 0) /\
     pal !! Z.to_nat (levels - 1) = Some (255, 255, 255) /\
     (forall i v1 v2 v3, pal !! i = Some (v1, v2, v3) ->
        v1 = v2 /\ v2 = v3 /\ 0 <= v1 <= 255) /\
     (forall (i j : nat) v w, (i <= j)%nat -> pal !! i = Some (v, v, v) ->
        pal !! j = Some (w, w, w) -> v <= w)).
Proof.
  split.
  - intros H. unfold createGrayscalePalette. replace (levels <? 2) with true by lia.
    reflexivity.
  - intros H.
    destruct (createGrayscalePalette levels) as [e|pal] eqn:E.
    { unfold createGrayscalePalette in E. replace (levels <? 2) with false in E by lia.
      discriminate. }
    exists pal. split; [reflexivity|].
    pose proof (grayscale_length _ _ E) as L.
    assert (Lk : forall i : nat, pal !! i <> None -> (i < Z.to_nat levels)%nat)
      by (intros i Hi; rewrite <- L; apply lookup_lt_is_Some_1; destruct (pal !! i);
          [eexists; reflexivity|contradiction]).
    split; [rewrite L; lia|].
    split; [rewrite (grayscale_lookup _ _ 0 E) by lia; simpl;
            rewrite Z.div_small by lia; reflexivity|].
    split.
    { rewrite (grayscale_lookup _ _ (Z.to_nat (levels - 1)) E) by lia.
      rewrite Z2Nat.id by lia.
      rewrite <- (Z.div_unique_pos _ _ 255 (levels - 1)) by lia. reflexivity. }
    split.
    + intros i v1 v2 v3 Hi.
      assert (Hlt : (i < Z.to_nat levels)%nat) by (apply Lk; rewrite Hi; discriminate).
      rewrite (grayscale_lookup _ _ i E Hlt) in Hi. injection Hi as <- <- <-.
      split; [reflexivity|split; [reflexivity|]]. split.
      * apply Z.div_pos; lia.
      * assert (Hq : (510 * Z.of_nat i + (levels - 1)) / (2 * (levels - 1)) < 256) by (apply Z.div_lt_upper_bound; lia). lia.
    + intros i j v w Hij Hi Hj.
      assert (Hlt : (j < Z.to_nat levels)%nat) by (apply Lk; rewrite Hj; discriminate).
      rewrite (grayscale_lookup _ _ i E) in Hi by lia.
      rewrite (grayscale_lookup _ _ j E Hlt) in Hj.
      injection Hi as <- _ _. injection Hj as <- _ _.
      apply Z.div_le_mono; lia.
Qed.

Lemma grayscale_palette_shape_witness :
  exists pal, createGrayscalePalette 3 = inr pal /\ Z.of_nat (length pal) = 3 /\
    pal !! 1%nat = Some (128, 128, 128).
Proof.
  destruct (proj2 (grayscale_palette_shape 3) ltac:(lia)) as (pal & E & L & _).
  exists pal. split; [exact E|split; [exact L|]].
  revert E. vm_compute. intros [= <-]. reflexivity.
Defined.

(** X11: createGrayscalePalette returns pairwise distinct colours for at most
    256 levels. *)
Theorem grayscale_palette_distinct (levels : Z) (pal : list color) :
  levels <= 256 -> createGrayscalePalette levels = inr pal -> NoDup pal.
Proof.
  intros Hl E.
  assert (H2 : 2 <= levels)
    by (unfold createGrayscalePalette in E; destruct (levels <? 2) eqn:B;
        [discriminate|apply Z.ltb_ge in B; exact B]).
  pose proof (grayscale_length _ _ E) as L.
  apply NoDup_alt. intros i j c Hi Hj.
  assert (Ii : (i < Z.to_nat levels)%nat)
    by (rewrite <- L; apply lookup_lt_is_Some_1; eexists; exact Hi).
  assert (Ij : (j < Z.to_nat levels)%nat)
    by (rewrite <- L; apply lookup_lt_is_Some_1; eexists; exact Hj).
  rewrite (grayscale_lookup _ _ i E Ii) in Hi. rewrite (grayscale_lookup _ _ j E Ij) in Hj.
  rewrite <- Hj in Hi. injection Hi as Hv _ _.
  (* one level more moves the value by at least one *)
  assert (Step : forall a b : nat, (a < b)%nat ->
            (510 * Z.of_nat a + (levels - 1)) / (2 * (levels - 1)) <
            (510 * Z.of_nat b + (levels - 1)) / (2 * (levels - 1))).
  { intros a b Hab.
    apply Z.lt_le_trans with ((510 * Z.of_nat a + (levels - 1)) / (2 * (levels - 1)) + 1);
      [lia|].
    rewrite <- Z.div_add by lia.
    apply Z.div_le_mono; lia. }
  destruct (Nat.lt_trichotomy i j) as [Hlt|[Heq|Hgt]]; [|exact Heq|].
  - specialize (Step i j Hlt). lia.
  - specialize (Step j i Hgt). lia.
Qed.

Lemma grayscale_palette_distinct_witness :
  NoDup [(0, 0, 0); (85, 85, 85); (170, 170, 170); (255, 255, 255)].
Proof.
  apply (grayscale_palette_distinct 4); [lia|vm_compute; reflexivity].
Defined.


Lemma insertByLuminance_perm c l : insertByLuminance c l ≡ₚ c :: l.
Proof.
  induction l as [|d l IH]; simpl; [reflexivity|].
  destruct (Qlt_bool _ _); [reflexivity|].
  rewrite IH. apply perm_swap.
Qed.

Lemma sortByLuminance_perm l : sortByLuminance l ≡ₚ l.
Proof.
  unfold sortByLuminance.
  assert (G : forall acc, fold_left (fun acc c => insertByLuminance c acc) l acc ≡ₚ acc ++ l).
  { induction l as [|c l IH]; intros acc; simpl; [rewrite app_nil_r; reflexivity|].
    rewrite IH, insertByLuminance_perm. rewrite <- Permutation_middle. reflexivity. }
  rewrite G. reflexivity.
Qed.




Lemma set_add_spec c s : NoDup s -> NoDup (set_add c s) /\ (forall d, d ∈ set_add c s <-> d = c \/ d ∈ s).
Proof.
  intros Hs. unfold set_add. destruct (bool_decide (c ∈ s)) eqn:E.
  - apply bool_decide_eq_true in E. split; [exact Hs|]. intros d. split; [tauto|].
    intros [->|H]; assumption.
  - apply bool_decide_eq_false in E. split.
    + apply NoDup_app. split; [exact Hs|split; [|apply NoDup_singleton]].
      intros x Hx Hx'. apply list_elem_of_singleton in Hx'. subst. contradiction.
    + intros d. rewrite elem_of_app, list_elem_of_singleton. tauto.
Qed.

Lemma lookup_skip4 (x0 x1 x2 x3 : Z) data (n : nat) :
  (x0 :: x1 :: x2 :: x3 :: data) !! (4 + n)%nat = data !! n.
Proof. reflexivity. Qed.

Lemma opaque_pixel_cons data r g b a c :
  opaque_pixel (r :: g :: b :: a :: data) c <->
  (c = (r, g, b) /\ a <> 0) \/ opaque_pixel data c.
Proof.
  destruct c as [[r' g'] b']. unfold opaque_pixel. split.
  - intros ([|k] & a' & H0 & H1 & H2 & H3 & Ha).
    + injection H0 as <-. injection H1 as <-. injection H2 as <-.
      injection H3 as <-. left. split; [reflexivity|exact Ha].
    + right. exists k, a'.
      replace (4 * S k)%nat with (4 + 4 * k)%nat in H0 by lia.
      replace (4 * S k + 1)%nat with (4 + (4 * k + 1))%nat in H1 by lia.
      replace (4 * S k + 2)%nat with (4 + (4 * k + 2))%nat in H2 by lia.
      replace (4 * S k + 3)%nat with (4 + (4 * k + 3))%nat in H3 by lia.
      rewrite !lookup_skip4 in *. tauto.
  - intros [[[= <- <- <-] Ha]|(k & a' & H0 & H1 & H2 & H3 & Ha)].
    + exists 0%nat, a. simpl. tauto.
    + exists (S k), a'.
      replace (4 * S k)%nat with (4 + 4 * k)%nat by lia.
      replace (4 + 4 * k + 1)%nat with (4 + (4 * k + 1))%nat by lia.
      replace (4 + 4 * k + 2)%nat with (4 + (4 * k + 2))%nat by lia.
      replace (4 + 4 * k + 3)%nat with (4 + (4 * k + 3))%nat by lia.
      rewrite !lookup_skip4. tauto.
Qed.

Lemma opaque_pixel_short data c : (length data < 4)%nat -> ~ opaque_pixel data c.
Proof.
  intros Hl. destruct c as [[r g] b]. simpl. intros (k & a & _ & _ & _ & H3 & _).
  apply lookup_lt_Some in H3. lia.
Qed.

Lemma collectColors_spec data acc :
  NoDup acc ->
  NoDup (collectColors data acc) /\
  (forall c, c ∈ collectColors data acc <-> c ∈ acc \/ opaque_pixel data c).
Proof.
  remember (length data) as n eqn:Hn. revert data acc Hn.
  induction n as [n IH] using lt_wf_ind. intros data acc Hn Hacc.
  destruct data as [|r [|g [|b [|a rest]]]];
    try (split; [exact Hacc|intros c; split; [tauto|]];
         intros [H|H]; [exact H|exfalso; revert H; apply opaque_pixel_short; simpl; lia]).
  simpl.
  assert (Hnext : NoDup (if a =? 0 then acc else set_add (r, g, b) acc) /\
            forall c, c ∈ (if a =? 0 then acc else set_add (r, g, b) acc) <->
                      c ∈ acc \/ (c = (r, g, b) /\ a <> 0)).
  { destruct (a =? 0) eqn:Ea.
    - apply Z.eqb_eq in Ea. split; [exact Hacc|]. intros c. tauto.
    - apply Z.eqb_neq in Ea. destruct (set_add_spec (r, g, b) acc Hacc) as [N M].
      split; [exact N|]. intros c. rewrite M. tauto. }
  destruct Hnext as [N M].
  destruct (IH (length rest) ltac:(simpl in Hn; lia) rest _ eq_refl N) as [N' M'].
  split; [exact N'|]. intros c. rewrite M', M, opaque_pixel_cons. tauto.
Qed.

(** X12: for a buffer of whole pixels, extractColorsFromImageData returns each
    colour of an opaque pixel exactly once and nothing else. *)
Theorem extract_colors_members (data : list Z) (H4 : (length data mod 4 = 0)%nat) :
  NoDup (extractColorsFromImageData data) /\
  (forall c, c ∈ extractColorsFromImageData data <-> opaque_pixel data c).
Proof.
  destruct (collectColors_spec data [] (NoDup_nil_2)) as [N M].
  unfold extractColorsFromImageData. split.
  - rewrite sortByLuminance_perm. exact N.
  - intros c. rewrite sortByLuminance_perm, M. rewrite elem_of_nil. tauto.
Qed.

Lemma extract_colors_members_witness :
  NoDup (extractColorsFromImageData [10; 20; 30; 255; 0; 0; 0; 0; 10; 20; 30; 7]).
Proof.
  exact (proj1 (extract_colors_members [10; 20; 30; 255; 0; 0; 0; 0; 10; 20; 30; 7]
                  ltac:(reflexivity))).
Defined.


(** X14: a reference image with no opaque pixel gives an empty palette, and
    ditherImage then fails with the empty-palette error. *)
Theorem transparent_palette_image (c : Collaborators) (w : World) (input : ImageData)
    (options : DitherOptions) (img : positive) (data : list Z)
    (Hval : validateOptions options = inr tt)
    (Hpal : opt_palette options = None) (Himg : opt_paletteImg options = Some img)
    (Hgen : forall w1, generatePalette c w1 img = inr (extractColorsFromImageData data))
    (Htr : forall (k : nat) a, data !! (4 * k + 3)%nat = Some a -> a = 0) :
  extractColorsFromImageData data = [] /\
  snd (ditherImage c Registry.algorithms w input options) = inl EmptyPalette.
Proof.
  assert (E : extractColorsFromImageData data = []).
  { destruct (collectColors_spec data [] (NoDup_nil_2)) as [_ M].
    unfold extractColorsFromImageData.
    destruct (collectColors data []) as [|d l] eqn:Ec; [reflexivity|].
    exfalso. destruct (proj1 (M d) ltac:(left)) as [H|H]; [apply elem_of_nil in H; exact H|].
    destruct d as [[r g] b]. destruct H as (k & a & _ & _ & _ & H3 & Ha).
    apply Ha. exact (Htr k a H3). }
  split; [exact E|].
  unfold ditherImage. rewrite Hval.
  assert (Hdp : determinePalette c w options = inr [])
    by (unfold determinePalette; rewrite Hpal, Himg, Hgen, E; reflexivity).
  rewrite Hdp.
  destruct (builtin_lookup _ (algorithmNameOf_valid options tt Hval)) as (alg & Eg & _ & Hb).
  rewrite Eg, builtin_apply_empty by exact Hb. reflexivity.
Qed.

Lemma transparent_palette_image_witness :
  let c := mkCollaborators
             (fun _ _ => inr (extractColorsFromImageData [10; 20; 30; 0; 1; 2; 3; 0])) in
  let options := mkDitherOptions None None None None None None (Some 7%positive) in
  extractColorsFromImageData [10; 20; 30; 0; 1; 2; 3; 0] = [] /\
  snd (ditherImage c Registry.algorithms grey_world grey_input options) = inl EmptyPalette.
Proof.
  intros c options.
  apply (transparent_palette_image c grey_world grey_input options 7%positive
           [10; 20; 30; 0; 1; 2; 3; 0]); [reflexivity|reflexivity|reflexivity|reflexivity|].
  intros k a H.
  destruct k as [|[|k]]; [injection H as <-; reflexivity|injection H as <-; reflexivity|].
  apply lookup_lt_Some in H. simpl in H. lia.
Defined.


Lemma Math_round_Z (z : Z) : Math_round (inject_Z z) = z.
Proof.
  unfold Math_round.
  rewrite (Qfloor_comp _ (inject_Z (2 * z + 1) / inject_Z 2)).
  - rewrite <- Zdiv_Qdiv. replace (2 * z + 1) with (1 + z * 2) by lia.
    rewrite Z.div_add by lia. reflexivity.
  - rewrite inject_Z_plus, inject_Z_mult. field.
Qed.

Lemma Math_round_le x y : (x <= y)%Q -> Math_round x <= Math_round y.
Proof.
  intros H. unfold Math_round. apply Qfloor_resp_le. apply Qplus_le_compat; [exact H|].
  apply Qle_refl.
Qed.

Lemma Math_round_eq x y : (x == y)%Q -> Math_round x = Math_round y.
Proof. intros H. unfold Math_round. apply Qfloor_comp. rewrite H. reflexivity. Qed.


Lemma truthy_Z (z : Z) : z <> 0 -> truthy (Some (inject_Z z)) = true.
Proof.
  intros Hz. simpl. apply negb_true_iff.
  destruct (Qeq_bool (inject_Z z) 0) eqn:E; [|reflexivity].
  apply Qeq_bool_iff in E. change 0%Q with (inject_Z 0) in E.
  exfalso. apply Hz. apply inject_Z_injective. exact E.
Qed.

Lemma scale_mul (o m : Q) : (0 < o)%Q -> (o * (m / o) == m)%Q.
Proof. intros Ho. field. intros H. rewrite H in Ho. apply (Qlt_irrefl 0). exact Ho. Qed.

Lemma scale_mono (o a b : Q) : (0 < o)%Q -> (a <= b)%Q -> (o * a <= o * b)%Q.
Proof.
  intros Ho Hab. rewrite (Qmult_comm o a), (Qmult_comm o b).
  apply Qmult_le_compat_r; [exact Hab|apply Qlt_le_weak; exact Ho].
Qed.

(** X15: calculateResizeDimensions with both bounds and fit contain (the
    default) returns integers within both bounds, one of them equal to its
    bound. *)
Theorem resize_contain (originalWidth originalHeight : Q) (maxWidth maxHeight : Z)
    (fit : option Fit)
    (Hw : (0 < originalWidth)%Q) (Hh : (0 < originalHeight)%Q)
    (Hmw : 0 < maxWidth) (Hmh : 0 < maxHeight)
    (Hfit : fit = None \/ fit = Some Contain) :
  exists newWidth newHeight,
    calculateResizeDimensions originalWidth originalHeight
      (mkResizeOptions (Some (inject_Z maxWidth)) (Some (inject_Z maxHeight)) fit)
    = (inject_Z newWidth, inject_Z newHeight) /\
    newWidth <= maxWidth /\ newHeight <= maxHeight /\
    (newWidth = maxWidth \/ newHeight = maxHeight).
Proof.
  unfold calculateResizeDimensions. simpl ro_width. simpl ro_height. simpl ro_fit.
  rewrite !truthy_Z by lia. simpl andb. cbv iota zeta.
  replace (default Contain fit) with Contain by (destruct Hfit as [->| ->]; reflexivity).
  simpl default.
  eexists _, _. split; [reflexivity|].
  set (sw := (inject_Z maxWidth / originalWidth)%Q).
  set (sh := (inject_Z maxHeight / originalHeight)%Q).
  destruct (Qlt_le_dec sh sw) as [Hle|Hle]; [apply Qlt_le_weak in Hle|].
  - rewrite (Math_round_eq _ _ (Qmult_comp _ _ (Qeq_refl _) _ _ (Q.min_r _ _ Hle))).
    rewrite (Math_round_eq _ _ (Qmult_comp _ _ (Qeq_refl _) _ _ (Q.min_r _ _ Hle))).
    assert (E1 : Math_round (originalHeight * sh) = maxHeight)
      by (unfold sh; rewrite (Math_round_eq _ _ (scale_mul _ _ Hh)); apply Math_round_Z).
    assert (E2 : Math_round (originalWidth * sh) <= maxWidth).
    { rewrite <- (Math_round_Z maxWidth).
      rewrite <- (Math_round_eq _ _ (scale_mul _ (inject_Z maxWidth) Hw)).
      apply Math_round_le. apply scale_mono; assumption. }
    lia.
  - rewrite (Math_round_eq _ _ (Qmult_comp _ _ (Qeq_refl _) _ _ (Q.min_l _ _ Hle))).
    rewrite (Math_round_eq _ _ (Qmult_comp _ _ (Qeq_refl _) _ _ (Q.min_l _ _ Hle))).
    assert (E1 : Math_round (originalWidth * sw) = maxWidth)
      by (unfold sw; rewrite (Math_round_eq _ _ (scale_mul _ _ Hw)); apply Math_round_Z).
    assert (E2 : Math_round (originalHeight * sw) <= maxHeight).
    { rewrite <- (Math_round_Z maxHeight).
      rewrite <- (Math_round_eq _ _ (scale_mul _ (inject_Z maxHeight) Hh)).
      apply Math_round_le. apply scale_mono; assumption. }
    lia.
Qed.

Lemma resize_contain_witness :
  calculateResizeDimensions 400 200
    (mkResizeOptions (Some (inject_Z 100)) (Some (inject_Z 100)) None)
  = (inject_Z 100, inject_Z 50).
Proof.
  destruct (resize_contain 400 200 100 100 None ltac:(reflexivity) ltac:(reflexivity)
              ltac:(lia) ltac:(lia) (or_introl eq_refl)) as (nw & nh & E & _).
  rewrite E. revert E. vm_compute. intros [= <- <-]. reflexivity.
Defined.

(** X16: calculateResizeDimensions with both bounds and fit cover returns
    integers at least both bounds, one of them equal to its bound. *)
Theorem resize_cover (originalWidth originalHeight : Q) (maxWidth maxHeight : Z)
    (Hw : (0 < originalWidth)%Q) (Hh : (0 < originalHeight)%Q)
    (Hmw : 0 < maxWidth) (Hmh : 0 < maxHeight) :
  exists newWidth newHeight,
    calculateResizeDimensions originalWidth originalHeight
      (mkResizeOptions (Some (inject_Z maxWidth)) (Some (inject_Z maxHeight)) (Some Cover))
    = (inject_Z newWidth, inject_Z newHeight) /\
    maxWidth <= newWidth /\ maxHeight <= newHeight /\
    (newWidth = maxWidth \/ newHeight = maxHeight).
Proof.
  unfold calculateResizeDimensions. simpl ro_width. simpl ro_height. simpl ro_fit.
  rewrite !truthy_Z by lia. simpl andb. cbv iota zeta. simpl default.
  eexists _, _. split; [reflexivity|].
  set (sw := (inject_Z maxWidth / originalWidth)%Q).
  set (sh := (inject_Z maxHeight / originalHeight)%Q).
  destruct (Qlt_le_dec sh sw) as [Hle|Hle]; [apply Qlt_le_weak in Hle|].
  - rewrite (Math_round_eq _ _ (Qmult_comp _ _ (Qeq_refl _) _ _ (Q.max_l _ _ Hle))).
    rewrite (Math_round_eq _ _ (Qmult_comp _ _ (Qeq_refl _) _ _ (Q.max_l _ _ Hle))).
    assert (E1 : Math_round (originalWidth * sw) = maxWidth)
      by (unfold sw; rewrite (Math_round_eq _ _ (scale_mul _ _ Hw)); apply Math_round_Z).
    assert (E2 : maxHeight <= Math_round (originalHeight * sw)).
    { rewrite <- (Math_round_Z maxHeight) at 1.
      rewrite <- (Math_round_eq _ _ (scale_mul _ (inject_Z maxHeight) Hh)).
      apply Math_round_le. apply scale_mono; assumption. }
    lia.
  - rewrite (Math_round_eq _ _ (Qmult_comp _ _ (Qeq_refl _) _ _ (Q.max_r _ _ Hle))).
    rewrite (Math_round_eq _ _ (Qmult_comp _ _ (Qeq_refl _) _ _ (Q.max_r _ _ Hle))).
    assert (E1 : Math_round (originalHeight * sh) = maxHeight)
      by (unfold sh; rewrite (Math_round_eq _ _ (scale_mul _ _ Hh)); apply Math_round_Z).
    assert (E2 : maxWidth <= Math_round (originalWidth * sh)).
    { rewrite <- (Math_round_Z maxWidth) at 1.
      rewrite <- (Math_round_eq _ _ (scale_mul _ (inject_Z maxWidth) Hw)).
      apply Math_round_le. apply scale_mono; assumption. }
    lia.
Qed.

Lemma resize_cover_witness :
  calculateResizeDimensions 400 200
    (mkResizeOptions (Some (inject_Z 100)) (Some (inject_Z 100)) (Some Cover))
  = (inject_Z 200, inject_Z 100).
Proof.
  destruct (resize_cover 400 200 100 100 ltac:(reflexivity) ltac:(reflexivity)
              ltac:(lia) ltac:(lia)) as (nw & nh & E & _).
  rewrite E. revert E. vm_compute. intros [= <- <-]. reflexivity.
Defined.




(** X18: validateImageDimensions accepts exactly the integer dimensions from 1
    to 8192. *)
Theorem validateImageDimensions_ok (width height : Q) :
  validateImageDimensions width height = inr tt <->
  exists W H : Z, (width == inject_Z W)%Q /\ (height == inject_Z H)%Q /\
    1 <= W <= 8192 /\ 1 <= H <= 8192.
Proof.
  unfold validateImageDimensions, isInteger. split.
  - destruct (Qle_bool width 0) eqn:A1; [discriminate|].
    destruct (Qle_bool height 0) eqn:A2; [discriminate|]. simpl.
    destruct (Qlt_bool 8192 width) eqn:B1; [discriminate|].
    destruct (Qlt_bool 8192 height) eqn:B2; [discriminate|]. simpl.
    destruct (Qeq_bool (inject_Z (Qfloor width)) width) eqn:C1; [|discriminate].
    destruct (Qeq_bool (inject_Z (Qfloor height)) height) eqn:C2; [|discriminate].
    intros _. apply Qeq_bool_iff in C1, C2.
    apply Qlt_bool_false in B1, B2.
    assert (N1 : ~ (width <= 0)%Q) by (intros H; apply Qle_bool_iff in H; congruence).
    assert (N2 : ~ (height <= 0)%Q) by (intros H; apply Qle_bool_iff in H; congruence).
    apply Qnot_le_lt in N1, N2.
    exists (Qfloor width), (Qfloor height).
    split; [symmetry; exact C1|split; [symmetry; exact C2|]].
    rewrite <- C1 in N1, B1. rewrite <- C2 in N2, B2.
    change 0%Q with (inject_Z 0) in N1, N2.
    change 8192%Q with (inject_Z 8192) in B1, B2.
    rewrite <- Zlt_Qlt in N1, N2. rewrite <- Zle_Qle in B1, B2. lia.
  - intros (W & H & EW & EH & HW & HH).
    assert (A1 : Qle_bool width 0 = false).
    { destruct (Qle_bool width 0) eqn:E; [|reflexivity].
      apply Qle_bool_iff in E. rewrite EW in E. change 0%Q with (inject_Z 0) in E.
      rewrite <- Zle_Qle in E. lia. }
    assert (A2 : Qle_bool height 0 = false).
    { destruct (Qle_bool height 0) eqn:E; [|reflexivity].
      apply Qle_bool_iff in E. rewrite EH in E. change 0%Q with (inject_Z 0) in E.
      rewrite <- Zle_Qle in E. lia. }
    assert (B1 : Qlt_bool 8192 width = false).
    { apply Qlt_bool_false. rewrite EW. change 8192%Q with (inject_Z 8192).
      rewrite <- Zle_Qle. lia. }
    assert (B2 : Qlt_bool 8192 height = false).
    { apply Qlt_bool_false. rewrite EH. change 8192%Q with (inject_Z 8192).
      rewrite <- Zle_Qle. lia. }
    assert (C1 : Qeq_bool (inject_Z (Qfloor width)) width = true).
    { apply Qeq_bool_iff. rewrite (Qfloor_comp _ _ EW), Qfloor_Z. symmetry. exact EW. }
    assert (C2 : Qeq_bool (inject_Z (Qfloor height)) height = true).
    { apply Qeq_bool_iff. rewrite (Qfloor_comp _ _ EH), Qfloor_Z. symmetry. exact EH. }
    rewrite A1, A2, B1, B2, C1, C2. reflexivity.
Qed.
